(** * Mean rate distribution post-processor

    A shallow embedding of
    [openquake/calculators/postproc/compute_mrd.py]: the per-unit
    computation [compute_mrd], the weighted reduction [combine_mrds] and the
    orchestration [main], together with the parts of numpy they rely on
    (array shapes, broadcasting in-place addition, integer indexing).

    Conventions.
    - A Python exception is a value of [exn]; a computation that may raise
      returns a [result].
    - The arithmetic of array elements is a parameter ([Scalar]): a type
      with a zero, a sum and a product, of which nothing is assumed.  The
      float64 of the source is the instance [float_scalar] (binary64 with
      its rounding); integers are another.  A statement that needs exact
      arithmetic says so, with the semiring laws as an explicit
      hypothesis; every other statement holds for float64 as it is.
    - A [dict] is an association list in insertion order, as Python
      iterates it; its keys are distinct, so that walking the entries is
      walking the keys and looking each one up. *)

From Stdlib Require Import List ZArith Arith Lia Bool.
From Stdlib Require Import Ring_theory Ring Permutation PrimFloat.
Import ListNotations.

Set Implicit Arguments.

(** ** Exceptions and results *)

Inductive exn : Type :=
| AssertionError (N : nat)   (* assert N <= 10, 'Too many sites: %d' % N *)
| ZeroDivisionError          (* int / 0, int // 0 *)
| StopIteration              (* next() of an exhausted iterator *)
| IndexError                 (* array index out of range *)
| ValueError                 (* operands could not be broadcast together *)
| AttributeError             (* getattr of a missing name *)
| ConfigurationError.        (* invalid block size, named by the specification *)

Inductive result (A : Type) : Type :=
| OK (a : A)
| Raise (e : exn).

Arguments OK {A} a.
Arguments Raise {A} e.

Definition bind {A B : Type} (c : result A) (k : A -> result B) : result B :=
  match c with
  | OK a => k a
  | Raise e => Raise e
  end.

Notation "x <- c ;; k" := (bind c (fun x => k))
  (at level 61, c at next level, right associativity).

Definition map_result {A B : Type} (f : A -> B) (c : result A) : result B :=
  x <- c ;; OK (f x).

(** Indexing of a sequence by a non-negative integer: [l[i]]. *)
Definition getitem {A : Type} (l : list A) (i : nat) : result A :=
  match nth_error l i with
  | Some a => OK a
  | None => Raise IndexError
  end.

(** ** Dictionaries in insertion order *)

Definition dict (V : Type) : Type := list (nat * V).

Definition keys {V : Type} (d : dict V) : list nat := map fst d.

(** [d[k] = v]: replaces the value of an existing key in place, appends a
    new key at the end. *)
Fixpoint dict_set {V : Type} (k : nat) (v : V) (d : dict V) : dict V :=
  match d with
  | [] => [(k, v)]
  | (k', v') :: d' =>
      if Nat.eqb k k' then (k, v) :: d' else (k', v') :: dict_set k v d'
  end.

(** ** numpy arrays *)

Fixpoint zip_with {A B C : Type} (f : A -> B -> C)
         (l1 : list A) (l2 : list B) : list C :=
  match l1, l2 with
  | a :: l1', b :: l2' => f a b :: zip_with f l1' l2'
  | _, _ => []
  end.

(** [chunks k n d]: the first [n] consecutive blocks of [k] elements of
    [d]. *)
Fixpoint chunks {A : Type} (k n : nat) (d : list A) : list (list A) :=
  match n with
  | 0 => []
  | S n' => firstn k d :: chunks k n' (skipn k d)
  end.

(** Number of elements of an array of the given shape. *)
Definition size_of (shp : list nat) : nat := fold_right Nat.mul 1 shp.

(** numpy's rule for an operand of shape [src] written into an output of
    shape [dst] of the same rank: on every axis the lengths agree or the
    operand has length 1. *)
Fixpoint broadcastable (src dst : list nat) : bool :=
  match src, dst with
  | [], [] => true
  | m :: src', n :: dst' =>
      (Nat.eqb m n || Nat.eqb m 1) && broadcastable src' dst'
  | _, _ => false
  end.

(** An operand of lower rank is aligned to the right: its shape is
    completed with leading axes of length 1. *)
Definition pad_ones (k : nat) (shp : list nat) : list nat := repeat 1 k ++ shp.

(** Whether an operand of shape [src] can be added in place to an output
    of shape [dst]. *)
Definition broadcasts_to (src dst : list nat) : bool :=
  (length src <=? length dst)
  && broadcastable (pad_ones (length dst - length src) src) dst.

(** The elements (row-major) of an operand of shape [src] stretched to
    shape [dst]. *)
Fixpoint broadcast_data {A : Type} (src dst : list nat) (d : list A) : list A :=
  match src, dst with
  | m :: src', n :: dst' =>
      if Nat.eqb m n
      then flat_map (broadcast_data src' dst') (chunks (size_of src') m d)
      else concat (repeat (broadcast_data src' dst' d) n)
  | _, _ => d
  end.

(** An array: its shape and its elements in row-major order. *)
Record ndarray (R : Type) : Type :=
  mk_ndarray { shape : list nat; data : list R }.

(** The structured array [rlzs_by_g]: field ['rlzs'] holds for every
    sub-model index the realizations it takes part in, field ['weight'] is
    indexed by realization. *)
Record rlzs_by_g_t (R : Type) : Type :=
  mk_rlzs_by_g { rlzs : list (list nat); weight : list R }.

(** The arithmetic of array elements: zero, one, sum and product. *)
Class Scalar (R : Type) : Type :=
  { rO : R; rI : R; radd : R -> R -> R; rmul : R -> R -> R }.

Section Arrays.

Context {R : Type} {scalar : Scalar R}.

(** [numpy.zeros(shp)] *)
Definition zeros (shp : list nat) : ndarray R :=
  mk_ndarray shp (repeat rO (size_of shp)).

(** [w * a] for a scalar [w] *)
Definition scalar_mul (w : R) (a : ndarray R) : ndarray R :=
  mk_ndarray (shape a) (map (rmul w) (data a)).

(** [out += x]: the operand is broadcast to the shape of [out], which
    never changes; numpy raises ValueError when it cannot be. *)
Definition iadd (out x : ndarray R) : result (ndarray R) :=
  let src := pad_ones (length (shape out) - length (shape x)) (shape x) in
  if broadcasts_to (shape x) (shape out)
  then OK (mk_ndarray (shape out)
             (zip_with radd (data out)
                (broadcast_data src (shape out) (data x))))
  else Raise ValueError.

(** ** combine_mrds *)

(** One pass of [out += weig[rlz] * value]. *)
Definition add_weighted (weig : list R) (value : ndarray R)
           (out : ndarray R) (rlz : nat) : result (ndarray R) :=
  w <- getitem weig rlz ;;
  iadd out (scalar_mul w value).

(** [for rlz in rlzs[g]: out += weig[rlz] * value] *)
Fixpoint for_rlzs (weig : list R) (value : ndarray R)
         (rs : list nat) (out : ndarray R) : result (ndarray R) :=
  match rs with
  | [] => OK out
  | rlz :: rs' =>
      out' <- add_weighted weig value out rlz ;;
      for_rlzs weig value rs' out'
  end.

(** [for g in acc: value = acc[g]; for rlz in rlzs[g]: ...] *)
Fixpoint for_g (rlzs_ : list (list nat)) (weig : list R)
         (acc : dict (ndarray R)) (out : ndarray R) : result (ndarray R) :=
  match acc with
  | [] => OK out
  | (g, value) :: acc' =>
      rs <- getitem rlzs_ g ;;
      out' <- for_rlzs weig value rs out ;;
      for_g rlzs_ weig acc' out'
  end.

Definition combine_mrds (acc : dict (ndarray R)) (rlzs_by_g : rlzs_by_g_t R)
  : result (ndarray R) :=
  let rlzs_ := rlzs rlzs_by_g in
  let weig := weight rlzs_by_g in
  match acc with
  | [] => Raise StopIteration          (* g = next(iter(acc)) *)
  | (g, a) :: _ =>
      let out := zeros (shape a) in    (* numpy.zeros(acc[g].shape) *)
      for_g rlzs_ weig acc out
  end.

End Arrays.

(** ** Slices *)

(** [slice(start, stop)] *)
Definition slice : Type := (nat * nat)%type.

(** [l[start:stop]] *)
Definition getslice {A : Type} (l : list A) (s : slice) : list A :=
  firstn (snd s - fst s) (skipn (fst s) l).

Fixpoint slices_from (fuel start stop blocksize : nat) : list slice :=
  match fuel with
  | 0 => []
  | S fuel' =>
      if start <? stop
      then (start, Nat.min (start + blocksize) stop)
             :: slices_from fuel' (start + blocksize) stop blocksize
      else []
  end.

(** Modelled from the spec: [gen_slices] of [openquake.baselib.general] is
    called by [main] but is not among the sources.  Section 4.1: contiguous
    slices of length at most [blocksize], in order, covering the range
    exactly once, the last one possibly shorter; an empty range yields no
    slice.  No such slices exist for a non-empty range when the block size
    is below 1, which Sections 4.1 and 7 class as an invalid partition
    target ([ConfigurationError]). *)
Definition gen_slices (start stop : nat) (blocksize : Z) : result (list slice) :=
  if stop <=? start then OK []
  else if (blocksize <=? 0)%Z then Raise ConfigurationError
  else OK (slices_from (stop - start) start stop (Z.to_nat blocksize)).

(** [numpy.ceil(n / T)] on Python integers, the quotient taken exactly. *)
Definition ceil_div (n T : Z) : result Z :=
  if (T =? 0)%Z then Raise ZeroDivisionError else OK (- ((- n) / T))%Z.

(** [a // b] on Python integers. *)
Definition floor_div (a b : Z) : result Z :=
  if (b =? 0)%Z then Raise ZeroDivisionError else OK (a / b)%Z.

(** ** The calculator *)

Record ContextMaker : Type := mk_cmaker { gidx : list nat }.

Section Calculator.

Variable R : Type.
Context {scalar : Scalar R}.

(** Opaque data handed through to the numeric kernel. *)
Variables ctx_t crosscorr_t imt_t bins_t : Type.

(** The 4-D matrix returned by the kernel, of shape (L1, L1, N, G),
    row-major. *)
Record array4 : Type :=
  mk_array4 { shape4 : nat * nat * nat * nat; data4 : list R }.

(** [calc_mean_rate_dist] of [openquake.hazardlib.calc.mrd], the numeric
    kernel, is external. *)
Variable calc_mean_rate_dist :
  list ctx_t -> nat -> ContextMaker -> crosscorr_t ->
  imt_t -> imt_t -> bins_t -> bins_t -> array4.

Record Input : Type :=
  mk_Input { ctx : list ctx_t; cmaker : ContextMaker; N : nat; weight_ : nat }.

(** [Input.__init__] *)
Definition new_Input (c : list ctx_t) (cm : ContextMaker) (n : nat) : Input :=
  mk_Input c cm n (length c).

Definition pick {A : Type} (i : nat) (c : list A) : list A :=
  match nth_error c i with
  | Some x => [x]
  | None => []
  end.

(** [mrd[:, :, :, i]] *)
Definition slice_g (mrd : array4) (i : nat) : result (ndarray R) :=
  let '(l1, l2, n, G) := shape4 mrd in
  if i <? G
  then OK (mk_ndarray [l1; l2; n]
             (flat_map (pick i) (chunks G (l1 * l2 * n) (data4 mrd))))
  else Raise IndexError.

(** [{g: mrd[:, :, :, i] for i, g in enumerate(gs)}], from position [i]
    on. *)
Fixpoint by_gidx (mrd : array4) (i : nat) (gs : list nat)
         (d : dict (ndarray R)) : result (dict (ndarray R)) :=
  match gs with
  | [] => OK d
  | g :: gs' =>
      a <- slice_g mrd i ;;
      by_gidx mrd (S i) gs' (dict_set g a d)
  end.

Definition compute_mrd (inp : Input) (crosscorr : crosscorr_t)
           (imt1 imt2 : imt_t) (meabins sigbins : bins_t)
  : result (dict (ndarray R)) :=
  let mrd := calc_mean_rate_dist (ctx inp) (N inp) (cmaker inp) crosscorr
               imt1 imt2 meabins sigbins in
  by_gidx mrd 0 (gidx (cmaker inp)) [].

(** *** Effects of [main] *)

Inductive event : Type :=
| LogWarning (levels : Z)
| LogInfo (n : nat)
| SwmrOn
| Submit (inp : Input)
| CreateDset (shp : Z * Z * nat)
| WriteDset (a : ndarray R).

(** A computation that appends to the trace of effects and may raise;
    the effects made before an exception stay. *)
Definition M (A : Type) : Type := list event -> list event * result A.

Definition ret {A : Type} (a : A) : M A := fun tr => (tr, OK a).

Definition mbind {A B : Type} (c : M A) (k : A -> M B) : M B :=
  fun tr =>
    match c tr with
    | (tr', OK a) => k a tr'
    | (tr', Raise e) => (tr', Raise e)
    end.

Definition lift {A : Type} (c : result A) : M A := fun tr => (tr, c).

Definition emit (e : event) : M unit := fun tr => (tr ++ [e], OK tt).

Definition submitted (tr : list event) : list Input :=
  flat_map (fun e => match e with Submit i => [i] | _ => [] end) tr.

Record dstore : Type :=
  mk_dstore {
      imtls_size : nat;               (* oq.imtls.size *)
      imtls_len : nat;                (* len(oq.imtls) *)
      concurrent_tasks : Z;           (* oq.concurrent_tasks *)
      sitecol_len : nat;              (* len(dstore['sitecol']) *)
      cmakers : list ContextMaker;    (* contexts.read_cmakers(dstore) *)
      ctx_by_grp : dict (list ctx_t); (* contexts.read_ctx_by_grp(dstore) *)
      rlzs_by_g : rlzs_by_g_t R       (* dstore['rlzs_by_g'][:] *)
    }.

Notation "x <~ c ;; k" := (mbind c (fun x => k))
  (at level 61, c at next level, right associativity).

(** [getattr(cc, cross_correlation)()]: the cross correlation models
    live in [openquake.hazardlib.cross_correlation]. *)
Variable cc_name_t : Type.
Variable new_crosscorr : cc_name_t -> result crosscorr_t.

(** [parallel.Starmap(task).reduce()] over the submitted arguments: the
    task executor of [openquake.baselib.parallel] is external. *)
Variable starmap_reduce :
  (Input -> result (dict (ndarray R))) -> list Input ->
  result (dict (ndarray R)).

(** [for slc in ...: smap.submit((Input(ctx[slc], cmaker, N), ...))] *)
Fixpoint submit_slices (c : list ctx_t) (cm : ContextMaker) (n : nat)
         (slcs : list slice) : M unit :=
  match slcs with
  | [] => ret tt
  | slc :: slcs' =>
      _ <~ emit (Submit (new_Input (getslice c slc) cm n)) ;;
      submit_slices c cm n slcs'
  end.

(** [for grp_id, ctx in ctx_by_grp.items(): ...] *)
Fixpoint submit_groups (cms : list ContextMaker) (n : nat) (blocksize : Z)
         (groups : dict (list ctx_t)) : M unit :=
  match groups with
  | [] => ret tt
  | (grp_id, c) :: groups' =>
      cm <~ lift (getitem cms grp_id) ;;
      slcs <~ lift (gen_slices 0 (length c) blocksize) ;;
      _ <~ submit_slices c cm n slcs ;;
      submit_groups cms n blocksize groups'
  end.

(** The work units [main] submits for one group: one per slice, all with
    the binding of the group. *)
Definition units_of_group (cms : list ContextMaker) (n : nat) (blocksize : Z)
           (gc : nat * list ctx_t) : list Input :=
  match nth_error cms (fst gc), gen_slices 0 (length (snd gc)) blocksize with
  | Some cm, OK slcs => map (fun slc => new_Input (getslice (snd gc) slc) cm n) slcs
  | _, _ => []
  end.

(** [sum(len(ctx) for ctx in ctx_by_grp.values())] *)
Definition num_contexts (groups : dict (list ctx_t)) : nat :=
  list_sum (map (fun gc => length (snd gc)) groups).

(** The number of bins [oq.imtls.size // len(oq.imtls) - 1], as an
    integer, when there is at least one intensity measure. *)
Definition num_bins (ds : dstore) : Z :=
  (Z.of_nat (imtls_size ds) / Z.of_nat (imtls_len ds) - 1)%Z.

(** The warning logged for more than 24 bins. *)
Definition level_warning (ds : dstore) : list event :=
  if (24 <? num_bins ds)%Z then [LogWarning (num_bins ds + 1)] else [].

Definition is_log (e : event) : Prop :=
  match e with
  | LogWarning _ | LogInfo _ => True
  | _ => False
  end.

Definition main (ds : dstore) (imt1 imt2 : imt_t)
           (cross_correlation : cc_name_t) (meabins sigbins : bins_t)
  : M unit :=
  fun tr0 =>
  (crosscorr <~ lift (new_crosscorr cross_correlation) ;;
   let n_sites := sitecol_len ds in
   q <~ lift (floor_div (Z.of_nat (imtls_size ds))
                (Z.of_nat (imtls_len ds))) ;;
   let L1 := (q - 1)%Z in
   _ <~ (if (24 <? L1)%Z then emit (LogWarning (L1 + 1)) else ret tt) ;;
   _ <~ lift (if n_sites <=? 10 then OK tt
              else Raise (AssertionError n_sites)) ;;
   let n := num_contexts (ctx_by_grp ds) in
   _ <~ emit (LogInfo n) ;;
   blocksize <~ lift (ceil_div (Z.of_nat n) (concurrent_tasks ds)) ;;
   _ <~ emit SwmrOn ;;
   _ <~ submit_groups (cmakers ds) n_sites blocksize (ctx_by_grp ds) ;;
   (* the units submitted to this Starmap: those of this run *)
   acc <~ (fun tr =>
             (tr, starmap_reduce
                    (fun inp => compute_mrd inp crosscorr imt1 imt2
                                  meabins sigbins)
                    (submitted (skipn (length tr0) tr)))) ;;
   _ <~ emit (CreateDset (L1, L1, n_sites)) ;;
   out <~ lift (combine_mrds acc (rlzs_by_g ds)) ;;
   emit (WriteDset out)) tr0.

End Calculator.

Arguments LogWarning {R ctx_t} levels.
Arguments LogInfo {R ctx_t} n.
Arguments SwmrOn {R ctx_t}.
Arguments Submit {R ctx_t} inp.
Arguments CreateDset {R ctx_t} shp.
Arguments WriteDset {R ctx_t} a.

(** ** Specification-side definitions *)

Section Specification.

Context {R : Type} {scalar : Scalar R}.

(** Element by element sum of two arrays of one shape. *)
Definition aadd (a b : ndarray R) : ndarray R :=
  mk_ndarray (shape a) (zip_with radd (data a) (data b)).

(** Sum of a list of arrays of shape [shp], from the zero array. *)
Definition sum_arrays (shp : list nat) (l : list (ndarray R)) : ndarray R :=
  fold_right aadd (zeros shp) l.

Definition weight_of (tbl : rlzs_by_g_t R) (r : nat) : R :=
  nth r (weight tbl) rO.

Definition rlzs_of (tbl : rlzs_by_g_t R) (g : nat) : list nat :=
  nth g (rlzs tbl) [].

(** The shape the output is given: that of the first array. *)
Definition anchor_shape (acc : dict (ndarray R)) : list nat :=
  match acc with
  | [] => []
  | (_, a) :: _ => shape a
  end.

(** The result as the specification words it (Section 4.3): the sum over
    the [g] present of the sum over the realizations [r] of [g] of
    [weight(r) * A_g], from the zero array. *)
Definition weighted_sum (acc : dict (ndarray R)) (tbl : rlzs_by_g_t R)
  : ndarray R :=
  let shp := anchor_shape acc in
  sum_arrays shp
    (map (fun ga =>
            sum_arrays shp
              (map (fun r => scalar_mul (weight_of tbl r) (snd ga))
                 (rlzs_of tbl (fst ga))))
       acc).

(** An array of shape [shp] holding as many elements as its shape
    says. *)
Definition has_shape (shp : list nat) (a : ndarray R) : Prop :=
  shape a = shp /\ length (data a) = size_of shp.

(** Every partial array has the shape (L1, L1, N) of the data model. *)
Definition uniform_shape (acc : dict (ndarray R)) : Prop :=
  Forall (fun ga => has_shape (anchor_shape acc) (snd ga)) acc.

(** The weight table has a row for every [g] present and a weight for
    every realization listed there. *)
Definition table_covers (tbl : rlzs_by_g_t R) (acc : dict (ndarray R)) : Prop :=
  Forall (fun ga =>
            fst ga < length (rlzs tbl) /\
            Forall (fun r => r < length (weight tbl)) (rlzs_of tbl (fst ga)))
    acc.

(** The ceiling of [n / b] for a positive [b]. *)
Definition ceil_nat (n b : nat) : nat := (n + b - 1) / b.


(** A partial array the loop never adds (its [g] has no realization) or
    whose shape numpy can stretch to [shp]. *)
Definition accepted (tbl : rlzs_by_g_t R) (shp : list nat)
           (ga : nat * ndarray R) : bool :=
  match rlzs_of tbl (fst ga) with
  | [] => true
  | _ :: _ => broadcasts_to (shape (snd ga)) shp
  end.

End Specification.

(** ** Integer arithmetic and test data *)

#[export] Instance Z_scalar : Scalar Z :=
  {| rO := 0%Z; rI := 1%Z; radd := Z.add; rmul := Z.mul |}.

Module Scenario.

(** An array with every element equal to [v]. *)
Definition full (shp : list nat) (v : Z) : ndarray Z :=
  mk_ndarray shp (repeat v (size_of shp)).

(** Stand-in for the kernel: a matrix of shape (2, 2, N, 2) holding 1 for
    the first sub-model and 2 for the second. *)
Definition stub_kernel (c : list nat) (n : nat) (cm : ContextMaker)
           (crosscorr imt1 imt2 meabins sigbins : unit) : array4 Z :=
  mk_array4 (2, 2, n, 2) (flat_map (fun _ => [1; 2]%Z) (seq 0 (2 * 2 * n))).

(** Stand-in for the executor: runs the tasks one after the other and
    adds up, key by key, the dictionaries they return. *)
Fixpoint accumulate (d acc : dict (ndarray Z)) : result (dict (ndarray Z)) :=
  match d with
  | [] => OK acc
  | (k, v) :: d' =>
      match find (fun kv => Nat.eqb (fst kv) k) acc with
      | None => accumulate d' (dict_set k v acc)
      | Some (_, old) =>
          new <- iadd old v ;;
          accumulate d' (dict_set k new acc)
      end
  end.

Fixpoint run_tasks (task : Input nat -> result (dict (ndarray Z)))
         (inputs : list (Input nat)) (acc : dict (ndarray Z))
  : result (dict (ndarray Z)) :=
  match inputs with
  | [] => OK acc
  | inp :: inputs' =>
      d <- task inp ;;
      acc' <- accumulate d acc ;;
      run_tasks task inputs' acc'
  end.

Definition stub_reduce (task : Input nat -> result (dict (ndarray Z)))
           (inputs : list (Input nat)) : result (dict (ndarray Z)) :=
  run_tasks task inputs [].

(** A datastore with [n_sites] sites, three levels per intensity measure
    (L1 = 2), one binding with [gidx = [0, 1]] per group, and two
    realizations, the first on sub-model 0 with weight 6, the second on
    sub-model 1 with weight 4. *)
Definition store (n_sites : nat) (T : Z) (groups : dict (list nat))
  : dstore Z nat :=
  mk_dstore 6 2 T n_sites
    (map (fun _ => mk_cmaker [0; 1]) groups) groups
    (mk_rlzs_by_g [[0]; [1]] [6; 4]%Z).

(** [main] run on the stand-ins, from the empty trace. *)
Definition run (ds : dstore Z nat) : list (event Z nat) * result unit :=
  main stub_kernel (fun _ : unit => OK tt) stub_reduce ds tt tt tt tt tt [].

(** The sizes of the units a run submits, in order. *)
Definition unit_sizes (ds : dstore Z nat) : list nat :=
  map (fun inp => length (ctx inp)) (submitted (fst (run ds))).

(** The single group of 12 records of the end-to-end scenario. *)
Definition twelve : dict (list nat) := [(0, seq 0 12)].

(** Two groups, of 4 and of 8 records. *)
Definition four_and_eight : dict (list nat) := [(0, seq 0 4); (1, seq 4 8)].

End Scenario.

(** ** Further specification-side definitions *)

(** Whether an array holds as many elements as its shape says, as every
    numpy array does. *)
Definition wf_array {R : Type} (a : ndarray R) : Prop :=
  length (data a) = size_of (shape a).

(** The shape (L1, L1, N) of the layers of a 4-D matrix, the number G of
    its layers, and whether it holds as many elements as its shape
    says. *)
Definition layer_shape {R : Type} (mrd : array4 R) : list nat :=
  let '(l1, l2, n, _) := shape4 mrd in [l1; l2; n].

Definition num_layers {R : Type} (mrd : array4 R) : nat := snd (shape4 mrd).

Definition wf_array4 {R : Type} (mrd : array4 R) : Prop :=
  length (data4 mrd) = size_of (layer_shape mrd) * num_layers mrd.

(** The array [mrd[:, :, :, i]] for an [i] in range. *)
Definition layer {R : Type} (mrd : array4 R) (i : nat) : ndarray R :=
  mk_ndarray (layer_shape mrd)
    (flat_map (pick i)
       (chunks (num_layers mrd) (size_of (layer_shape mrd)) (data4 mrd))).

(** The weight table with the weights of two tables added up,
    realization by realization. *)
Definition add_weights {R : Type} {scalar : Scalar R}
           (tbl tbl' : rlzs_by_g_t R) : rlzs_by_g_t R :=
  mk_rlzs_by_g (rlzs tbl) (zip_with radd (weight tbl) (weight tbl')).

Section RunDefinitions.

Variables R ctx_t : Type.

(** The block size [main] computes when the target is not 0. *)
Definition blocksize_of (ds : dstore R ctx_t) : Z :=
  (- ((- Z.of_nat (num_contexts (ctx_by_grp ds))) / concurrent_tasks ds))%Z.

(** The work units of a run, group after group. *)
Definition units_of_run (ds : dstore R ctx_t) : list (Input ctx_t) :=
  flat_map (units_of_group (cmakers ds) (sitecol_len ds) (blocksize_of ds))
    (ctx_by_grp ds).

(** What a run has done when all its units are submitted. *)
Definition dispatched (ds : dstore R ctx_t) : list (event R ctx_t) :=
  level_warning ds
  ++ [LogInfo (num_contexts (ctx_by_grp ds)); SwmrOn]
  ++ map Submit (units_of_run ds).

(** A datastore [main] gets through to the reduction with: at least one
    intensity measure, at most 10 sites, a target of at least 1 and a
    binding for every group. *)
Definition dispatchable (ds : dstore R ctx_t) : Prop :=
  imtls_len ds <> 0 /\ sitecol_len ds <= 10 /\
  (1 <= concurrent_tasks ds)%Z /\
  Forall (fun gc => fst gc < length (cmakers ds)) (ctx_by_grp ds).

End RunDefinitions.

(** ** The result of the loop, element by element *)

Section Accumulation.

Context {R : Type} {scalar : Scalar R}.

(** The products [weig[rlz] * value[k]] that the loop of [combine_mrds]
    adds at position [k] of the output, in the order it adds them: the
    sub-model indices in the order of the collection, the realizations of
    each in the order of its row. *)
Definition terms_at (acc : dict (ndarray R)) (tbl : rlzs_by_g_t R) (k : nat)
  : list R :=
  flat_map (fun ga =>
              map (fun r => rmul (weight_of tbl r) (nth k (data (snd ga)) rO))
                (rlzs_of tbl (fst ga)))
    acc.

(** The sum of a list of terms taken from zero and from left to right, as
    repeated [out += term] takes it. *)
Definition accumulate (l : list R) : R := fold_left radd l rO.

(** The array of the shape of the first partial array that holds at every
    position the accumulated terms of that position. *)
Definition accumulated (acc : dict (ndarray R)) (tbl : rlzs_by_g_t R)
  : ndarray R :=
  mk_ndarray (anchor_shape acc)
    (map (fun k => accumulate (terms_at acc tbl k))
       (seq 0 (size_of (anchor_shape acc)))).

End Accumulation.

(** [l] with the element at position [i] replaced by [x]. *)
Fixpoint set_nth {A : Type} (i : nat) (x : A) (l : list A) : list A :=
  match l, i with
  | [], _ => []
  | _ :: l', 0 => x :: l'
  | a :: l', S i' => a :: set_nth i' x l'
  end.

(** The weight table with the row of the sub-model index [g] replaced. *)
Definition with_row {R : Type} (g : nat) (rs : list nat) (tbl : rlzs_by_g_t R)
  : rlzs_by_g_t R :=
  mk_rlzs_by_g (set_nth g rs (rlzs tbl)) (weight tbl).

(** ** float64 *)

(** The arithmetic of the source: binary64 floating point numbers with
    their rounded sum and product. *)
#[export] Instance float_scalar : Scalar float :=
  {| rO := 0%float; rI := 1%float; radd := PrimFloat.add; rmul := PrimFloat.mul |}.

(** The one-element array [[1.0]]. *)
Definition float_one : ndarray float := mk_ndarray [1] [1%float].

(** ** The end of a run *)

Section RunTail.

Variable R : Type.
Context {scalar : Scalar R}.
Variable ctx_t : Type.


End RunTail.

(** * Properties *)

(** ** Lists and blocks *)

Lemma zip_with_length {A B C : Type} (f : A -> B -> C) (l1 : list A) (l2 : list B) :
  length (zip_with f l1 l2) = Nat.min (length l1) (length l2).
Proof.
  revert l2; induction l1 as [|a l1 IH]; intros [|b l2]; simpl; auto.
Qed.



Lemma chunks_concat {A : Type} (k n : nat) (d : list A) :
  length d = n * k -> concat (chunks k n d) = d.
Proof.
  revert d; induction n as [|n IH]; intros d Hlen; simpl in *.
  - now destruct d.
  - rewrite IH.
    + apply firstn_skipn.
    + rewrite length_skipn; lia.
Qed.

Lemma chunks_length_each {A : Type} (k n : nat) (d : list A) :
  length d = n * k -> Forall (fun c => length c = k) (chunks k n d).
Proof.
  revert d; induction n as [|n IH]; intros d Hlen; simpl in *; constructor.
  - rewrite length_firstn; lia.
  - apply IH. rewrite length_skipn; lia.
Qed.

Lemma flat_map_id_on {A : Type} (f : list A -> list A) (l : list (list A)) :
  Forall (fun c => f c = c) l -> flat_map f l = concat l.
Proof.
  induction 1 as [|c l Hc _ IH]; simpl; auto.
  now rewrite Hc, IH.
Qed.

Lemma broadcast_data_same {A : Type} (shp : list nat) (d : list A) :
  length d = size_of shp -> broadcast_data shp shp d = d.
Proof.
  revert d; induction shp as [|m shp IH]; intros d Hlen; simpl in *; auto.
  rewrite Nat.eqb_refl, flat_map_id_on.
  - now apply chunks_concat.
  - eapply Forall_impl; [|apply chunks_length_each; exact Hlen].
    intros c Hc; now apply IH.
Qed.


Lemma broadcastable_refl (shp : list nat) : broadcastable shp shp = true.
Proof.
  induction shp as [|m shp IH]; simpl; auto.
  now rewrite Nat.eqb_refl, IH.
Qed.

Lemma broadcasts_to_refl (shp : list nat) : broadcasts_to shp shp = true.
Proof.
  unfold broadcasts_to. rewrite Nat.leb_refl, Nat.sub_diag. simpl.
  apply broadcastable_refl.
Qed.


Lemma getitem_nth {A : Type} (l : list A) (i : nat) (dflt : A) :
  i < length l -> getitem l i = OK (nth i l dflt).
Proof.
  intros Hi. unfold getitem.
  now rewrite (nth_error_nth' l dflt Hi).
Qed.

(** ** The combiner in exact arithmetic *)

Section CombinerFacts.

Context {R : Type} {scalar : Scalar R}.
Hypothesis SRth : semi_ring_theory rO rI radd rmul (@eq R).

Add Ring scalar_ring : SRth.

Lemma zip_add_assoc (a b c : list R) :
  zip_with radd (zip_with radd a b) c = zip_with radd a (zip_with radd b c).
Proof.
  revert b c; induction a as [|x a IH]; intros [|y b] [|z c]; simpl; auto.
  rewrite IH. f_equal. ring.
Qed.

Lemma zip_add_zeros_r (a : list R) (n : nat) :
  length a = n -> zip_with radd a (repeat rO n) = a.
Proof.
  revert n; induction a as [|x a IH]; intros [|n] Hn; simpl in *; try discriminate; auto.
  rewrite IH by lia. f_equal. ring.
Qed.

Lemma zip_add_zeros_l (a : list R) (n : nat) :
  length a = n -> zip_with radd (repeat rO n) a = a.
Proof.
  revert n; induction a as [|x a IH]; intros [|n] Hn; simpl in *; try discriminate; auto.
  rewrite IH by lia. f_equal. ring.
Qed.

Lemma aadd_assoc (a b c : ndarray R) : aadd (aadd a b) c = aadd a (aadd b c).
Proof. unfold aadd; simpl. now rewrite zip_add_assoc. Qed.

Lemma aadd_zeros_r (shp : list nat) (a : ndarray R) :
  has_shape shp a -> aadd a (zeros shp) = a.
Proof.
  intros [Hs Hl]. destruct a as [s d]; simpl in *. subst s.
  unfold aadd; simpl. now rewrite zip_add_zeros_r.
Qed.

Lemma aadd_zeros_l (shp : list nat) (a : ndarray R) :
  has_shape shp a -> aadd (zeros shp) a = a.
Proof.
  intros [Hs Hl]. destruct a as [s d]; simpl in *. subst s.
  unfold aadd; simpl. now rewrite zip_add_zeros_l.
Qed.

Lemma has_shape_zeros (shp : list nat) : has_shape shp (zeros shp).
Proof. split; simpl; auto. apply repeat_length. Qed.

Lemma has_shape_aadd (shp : list nat) (a b : ndarray R) :
  has_shape shp a -> has_shape shp b -> has_shape shp (aadd a b).
Proof.
  intros [Ha1 Ha2] [Hb1 Hb2]; split; simpl; auto.
  rewrite zip_with_length; lia.
Qed.

Lemma has_shape_scalar_mul (shp : list nat) (w : R) (a : ndarray R) :
  has_shape shp a -> has_shape shp (scalar_mul w a).
Proof. intros [H1 H2]; split; simpl; auto. now rewrite length_map. Qed.

Lemma has_shape_sum_arrays (shp : list nat) (l : list (ndarray R)) :
  Forall (has_shape shp) l -> has_shape shp (sum_arrays shp l).
Proof.
  induction 1 as [|a l Ha _ IH]; simpl.
  - apply has_shape_zeros.
  - now apply has_shape_aadd.
Qed.

(** Adding an array of the output's own shape is the element by element
    sum, and never raises. *)
Lemma iadd_same_shape (shp : list nat) (out x : ndarray R) :
  shape out = shp -> has_shape shp x -> iadd out x = OK (aadd out x).
Proof.
  intros Ho [Hx Hl]. unfold iadd, aadd.
  rewrite Ho, Hx, broadcasts_to_refl, Nat.sub_diag. simpl.
  now rewrite broadcast_data_same.
Qed.

(** The inner loop adds the sum of the weighted copies of [value]. *)
Lemma for_rlzs_sum (shp : list nat) (weig : list R) (value : ndarray R)
      (rs : list nat) (out : ndarray R) :
  has_shape shp out -> has_shape shp value ->
  Forall (fun r => r < length weig) rs ->
  for_rlzs weig value rs out =
  OK (aadd out
        (sum_arrays shp (map (fun r => scalar_mul (nth r weig rO) value) rs))).
Proof.
  intros Ho Hv Hrs; revert out Ho.
  induction Hrs as [|r rs Hr _ IH]; intros out Ho; simpl.
  - now rewrite (aadd_zeros_r Ho).
  - unfold add_weighted. rewrite (getitem_nth _ rO Hr). simpl.
    rewrite (@iadd_same_shape shp) by
        (try apply has_shape_scalar_mul; auto; apply Ho).
    simpl. rewrite IH.
    + now rewrite aadd_assoc.
    + apply has_shape_aadd; auto. now apply has_shape_scalar_mul.
Qed.

Lemma has_shape_inner_sum (shp : list nat) (tbl : rlzs_by_g_t R)
      (value : ndarray R) (rs : list nat) :
  has_shape shp value ->
  has_shape shp
    (sum_arrays shp (map (fun r => scalar_mul (weight_of tbl r) value) rs)).
Proof.
  intros Hv. apply has_shape_sum_arrays, Forall_map, Forall_forall.
  intros r _. now apply has_shape_scalar_mul.
Qed.

(** The outer loop adds, for every entry, the sum of its weighted
    copies. *)
Lemma for_g_sum (shp : list nat) (tbl : rlzs_by_g_t R)
      (acc : dict (ndarray R)) (out : ndarray R) :
  has_shape shp out ->
  Forall (fun ga => has_shape shp (snd ga)) acc ->
  table_covers tbl acc ->
  for_g (rlzs tbl) (weight tbl) acc out =
  OK (aadd out
        (sum_arrays shp
           (map (fun ga =>
                   sum_arrays shp
                     (map (fun r => scalar_mul (weight_of tbl r) (snd ga))
                        (rlzs_of tbl (fst ga))))
              acc))).
Proof.
  intros Ho Hacc Hcov; revert out Ho.
  induction Hacc as [|[g value] acc Hv _ IH]; intros out Ho; simpl.
  - now rewrite (aadd_zeros_r Ho).
  - inversion Hcov as [|? ? [Hg Hrs] Hcov']; subst; simpl in *.
    rewrite (getitem_nth _ [] Hg). simpl.
    fold (rlzs_of tbl g).
    rewrite (@for_rlzs_sum shp (weight tbl) value (rlzs_of tbl g) out Ho Hv Hrs).
    simpl. fold (weight_of tbl).
    rewrite IH; auto.
    + now rewrite aadd_assoc.
    + apply has_shape_aadd; auto. now apply has_shape_inner_sum.
Qed.

(** On arrays of one shape and a table that covers them the combiner
    returns the specified sum. *)
Lemma combine_mrds_uniform (acc : dict (ndarray R)) (tbl : rlzs_by_g_t R) :
  acc <> [] -> uniform_shape acc -> table_covers tbl acc ->
  combine_mrds acc tbl = OK (weighted_sum acc tbl).
Proof.
  intros Hne Hsh Hcov. destruct acc as [|[g a] acc']; [congruence|].
  unfold combine_mrds, weighted_sum.
  unfold uniform_shape in Hsh.
  set (acc := (g, a) :: acc') in *.
  change (shape a) with (anchor_shape acc).
  rewrite (for_g_sum (has_shape_zeros _) Hsh Hcov).
  rewrite aadd_zeros_l; auto.
  apply has_shape_sum_arrays, Forall_map.
  eapply Forall_impl; [|exact Hsh].
  intros ga Hga. now apply has_shape_inner_sum.
Qed.

(** *** Scaling the weights *)





(** *** What the loop checks of the shapes *)

Lemma for_rlzs_shape_check (weig : list R) (value : ndarray R)
      (rs : list nat) (out : ndarray R) :
  Forall (fun r => r < length weig) rs ->
  if match rs with [] => true | _ :: _ => broadcasts_to (shape value) (shape out) end
  then exists out', for_rlzs weig value rs out = OK out' /\ shape out' = shape out
  else for_rlzs weig value rs out = Raise ValueError.
Proof.
  intros Hrs; revert out.
  induction Hrs as [|r rs Hr Hrs IH]; intros out; simpl.
  - now exists out.
  - unfold add_weighted. rewrite (getitem_nth _ rO Hr). simpl.
    unfold iadd. simpl.
    destruct (broadcasts_to (shape value) (shape out)) eqn:Hb; simpl; auto.
    match goal with
    | |- context [for_rlzs _ _ _ ?o] => specialize (IH o)
    end.
    destruct rs as [|r' rs']; simpl in IH |- *.
    + eexists; split; eauto.
    + rewrite Hb in IH. exact IH.
Qed.

Lemma for_g_shape_check (tbl : rlzs_by_g_t R) (shp : list nat)
      (acc : dict (ndarray R)) (out : ndarray R) :
  shape out = shp -> table_covers tbl acc ->
  if forallb (accepted tbl shp) acc
  then exists out', for_g (rlzs tbl) (weight tbl) acc out = OK out'
                    /\ shape out' = shp
  else for_g (rlzs tbl) (weight tbl) acc out = Raise ValueError.
Proof.
  intros Ho Hcov; revert out Ho.
  induction Hcov as [|[g value] acc [Hg Hrs] _ IH]; intros out Ho; simpl in *.
  - now exists out.
  - rewrite (getitem_nth _ [] Hg). simpl.
    unfold accepted at 1. simpl. unfold rlzs_of in *.
    pose proof (@for_rlzs_shape_check (weight tbl) value _ out Hrs) as Hin.
    rewrite Ho in Hin.
    destruct (nth g (rlzs tbl) []) as [|r rs] eqn:Hrl.
    + simpl. apply IH, Ho.
    + simpl in Hin |- *. destruct (broadcasts_to (shape value) shp); simpl.
      * destruct Hin as [out' [Hrun Hshape]]. rewrite Hrun. simpl.
        apply IH. congruence.
      * now rewrite Hin.
Qed.

(** C2, as the code has it.  [combine_mrds] takes the output shape from the
    first partial array and compares no shapes itself; the only check is
    numpy's broadcasting rule inside [out += weig[rlz] * value].  It raises
    ValueError exactly when some partial array that is added at least once
    has a shape that cannot be broadcast to the output shape; a partial
    array of a different shape that broadcasts, or whose sub-model index
    has no realization, is accepted and the output keeps the shape of the
    first array. *)
Theorem combine_mrds_shape_check (acc : dict (ndarray R)) (tbl : rlzs_by_g_t R) :
  acc <> [] -> table_covers tbl acc ->
  if forallb (accepted tbl (anchor_shape acc)) acc
  then exists out, combine_mrds acc tbl = OK out
                   /\ shape out = anchor_shape acc
  else combine_mrds acc tbl = Raise ValueError.
Proof.
  intros Hne Hcov. destruct acc as [|[g a] acc']; [congruence|].
  unfold combine_mrds. set (acc := (g, a) :: acc') in *.
  change (shape a) with (anchor_shape acc).
  now apply for_g_shape_check.
Qed.


(** C10. On an empty collection [combine_mrds] raises (StopIteration, from
    taking the first key) and returns no array. *)
Theorem combine_mrds_empty (tbl : rlzs_by_g_t R) :
  combine_mrds [] tbl = Raise StopIteration.
Proof. reflexivity. Qed.

End CombinerFacts.

(** ** Slices *)

Section SliceFacts.

Context {A : Type}.

Lemma slices_from_cover (l : list A) (bs fuel start : nat) :
  0 < bs -> length l - start <= fuel ->
  concat (map (getslice l) (slices_from fuel start (length l) bs)) = skipn start l.
Proof.
  intros Hbs; revert start; induction fuel as [|fuel IH]; intros start Hf; simpl.
  - symmetry. apply skipn_all2. lia.
  - destruct (start <? length l) eqn:Hlt.
    + apply Nat.ltb_lt in Hlt. simpl. rewrite IH by lia.
      unfold getslice; simpl.
      destruct (Nat.le_gt_cases (start + bs) (length l)) as [Hle|Hgt].
      * rewrite Nat.min_l by lia.
        replace (start + bs - start) with bs by lia.
        replace (start + bs) with (bs + start) by lia.
        rewrite <- skipn_skipn. apply firstn_skipn.
      * rewrite Nat.min_r by lia.
        rewrite (skipn_all2 (n := start + bs)) by lia.
        rewrite app_nil_r. apply firstn_all2.
        rewrite length_skipn. lia.
    + apply Nat.ltb_ge in Hlt. symmetry. apply skipn_all2. lia.
Qed.

Lemma slices_from_bounded (l : list A) (bs fuel start stop : nat) :
  Forall (fun s => length (getslice l s) <= bs) (slices_from fuel start stop bs).
Proof.
  revert start; induction fuel as [|fuel IH]; intros start; simpl; auto.
  destruct (start <? stop); constructor; auto.
  unfold getslice; simpl. rewrite length_firstn. lia.
Qed.

End SliceFacts.

Lemma ceil_nat_step (d bs : nat) :
  0 < bs -> 0 < d -> ceil_nat d bs = S (ceil_nat (d - bs) bs).
Proof.
  intros Hbs Hd. unfold ceil_nat.
  destruct (Nat.le_gt_cases d bs) as [Hle|Hgt].
  - replace (d - bs) with 0 by lia. simpl.
    rewrite (Nat.div_small (bs - 1) bs) by lia.
    symmetry. apply (Nat.div_unique _ _ 1 (d - 1)); lia.
  - replace (d + bs - 1) with ((d - bs + bs - 1) + 1 * bs) by lia.
    rewrite Nat.div_add by lia. lia.
Qed.

Lemma slices_from_count (bs fuel start stop : nat) :
  0 < bs -> stop - start <= fuel ->
  length (slices_from fuel start stop bs) = ceil_nat (stop - start) bs.
Proof.
  intros Hbs; revert start; induction fuel as [|fuel IH]; intros start Hf; simpl.
  - replace (stop - start) with 0 by lia. unfold ceil_nat. simpl.
    symmetry. apply Nat.div_small. lia.
  - destruct (start <? stop) eqn:Hlt.
    + apply Nat.ltb_lt in Hlt. simpl. rewrite IH by lia.
      rewrite (ceil_nat_step (d := stop - start)) by lia.
      do 2 f_equal. lia.
    + apply Nat.ltb_ge in Hlt. replace (stop - start) with 0 by lia.
      unfold ceil_nat. simpl. symmetry. apply Nat.div_small. lia.
Qed.

(** The slices of a whole sequence: in order they put the sequence back
    together, none is longer than the block size, and there are
    [ceil(n / blocksize)] of them.  With a block size of 0 this needs the
    sequence to be empty. *)
Lemma gen_slices_whole {A : Type} (l : list A) (b : nat) :
  (b = 0 -> l = []) ->
  exists slcs,
    gen_slices 0 (length l) (Z.of_nat b) = OK slcs /\
    concat (map (getslice l) slcs) = l /\
    Forall (fun s => length (getslice l s) <= b) slcs /\
    length slcs = ceil_nat (length l) b.
Proof.
  intros Hb. unfold gen_slices.
  destruct (length l <=? 0) eqn:Hl.
  - apply Nat.leb_le in Hl. assert (l = []) by (destruct l; simpl in *; auto; lia).
    subst l. exists []. repeat split; auto.
    unfold ceil_nat. simpl. destruct b; auto.
    symmetry. apply Nat.div_small. lia.
  - apply Nat.leb_gt in Hl.
    assert (0 < b) by (destruct b; [rewrite Hb in Hl by auto; simpl in Hl|]; lia).
    destruct (Z.of_nat b <=? 0)%Z eqn:Hz; [apply Z.leb_le in Hz; lia|].
    rewrite Nat2Z.id, Nat.sub_0_r.
    eexists; split; [reflexivity|]. repeat split.
    + now rewrite slices_from_cover by lia.
    + apply slices_from_bounded.
    + rewrite slices_from_count by lia. now rewrite Nat.sub_0_r.
Qed.

(** ** The orchestration *)

Lemma ceil_div_positive (n : nat) (T : Z) :
  (1 <= T)%Z ->
  exists b : nat,
    ceil_div (Z.of_nat n) T = OK (Z.of_nat b) /\
    (T * (Z.of_nat b - 1) < Z.of_nat n <= T * Z.of_nat b)%Z.
Proof.
  intros HT. unfold ceil_div.
  destruct (T =? 0)%Z eqn:H0; [apply Z.eqb_eq in H0; lia|].
  pose proof (Z.mul_div_le (- Z.of_nat n) T ltac:(lia)) as Hlo.
  pose proof (Z.mul_succ_div_gt (- Z.of_nat n) T ltac:(lia)) as Hhi.
  set (q := (- Z.of_nat n / T)%Z) in *.
  assert (Hq : (q <= 0)%Z) by nia.
  exists (Z.to_nat (- q)). rewrite Z2Nat.id by lia.
  split; [reflexivity|]. nia.
Qed.

Lemma dict_set_keys {V : Type} (k : nat) (v : V) (d : dict V) (g : nat) :
  In g (keys (dict_set k v d)) <-> g = k \/ In g (keys d).
Proof.
  induction d as [|[k' v'] d IH]; simpl.
  - intuition.
  - destruct (Nat.eqb k k') eqn:Hk; simpl.
    + apply Nat.eqb_eq in Hk. subst k'. intuition.
    + rewrite IH. intuition.
Qed.

Section DispatchFacts.

Variables R ctx_t : Type.

Lemma submit_slices_trace (c : list ctx_t) (cm : ContextMaker) (n : nat)
      (slcs : list slice) (tr : list (event R ctx_t)) :
  submit_slices c cm n slcs tr =
  (tr ++ map (fun slc => Submit (new_Input (getslice c slc) cm n)) slcs, OK tt).
Proof.
  revert tr; induction slcs as [|slc slcs IH]; intros tr; simpl.
  - unfold ret. now rewrite app_nil_r.
  - unfold mbind, emit. rewrite IH. now rewrite <- app_assoc.
Qed.

(** When every group has a binding and its slices can be generated, the
    loop submits the units of the groups, group after group, and raises
    nothing. *)
Lemma submit_groups_trace (cms : list ContextMaker) (n : nat) (blocksize : Z)
      (groups : dict (list ctx_t)) (tr : list (event R ctx_t)) :
  Forall (fun gc => fst gc < length cms /\
                    exists slcs, gen_slices 0 (length (snd gc)) blocksize = OK slcs)
    groups ->
  submit_groups cms n blocksize groups tr =
  (tr ++ map Submit (flat_map (units_of_group cms n blocksize) groups), OK tt).
Proof.
  intros Hg; revert tr.
  induction Hg as [|[grp c] groups [Hgrp [slcs Hslcs]] _ IH]; intros tr; simpl in *.
  - unfold ret. now rewrite app_nil_r.
  - unfold mbind, lift, units_of_group. simpl.
    rewrite (getitem_nth _ (mk_cmaker []) Hgrp).
    rewrite (nth_error_nth' cms (mk_cmaker []) Hgrp).
    rewrite Hslcs, submit_slices_trace, IH.
    now rewrite map_app, map_map, <- app_assoc.
Qed.

Lemma num_contexts_bound (groups : dict (list ctx_t)) (gc : nat * list ctx_t) :
  In gc groups -> length (snd gc) <= num_contexts groups.
Proof.
  unfold num_contexts.
  induction groups as [|gc' groups IH]; simpl; [tauto|].
  intros [->|Hin]; [lia|]. specialize (IH Hin). lia.
Qed.

End DispatchFacts.

Section CalculatorFacts.

Variable R : Type.
Context {scalar : Scalar R}.
Variables ctx_t crosscorr_t imt_t bins_t cc_name_t : Type.
Variable calc_mean_rate_dist :
  list ctx_t -> nat -> ContextMaker -> crosscorr_t ->
  imt_t -> imt_t -> bins_t -> bins_t -> array4 R.
Variable new_crosscorr : cc_name_t -> result crosscorr_t.
Variable starmap_reduce :
  (Input ctx_t -> result (dict (ndarray R))) -> list (Input ctx_t) ->
  result (dict (ndarray R)).

Lemma level_warning_is_log (ds : dstore R ctx_t) :
  Forall (@is_log R ctx_t) (level_warning ds).
Proof.
  unfold level_warning. destruct (24 <? num_bins ds)%Z; repeat constructor.
Qed.

(** C3. With more than 10 sites [main] stops at the assertion
    [N <= 10]: it raises, and whatever it did before is at most the
    warning about the number of levels; no unit is submitted, no dataset
    is created or written.  When the two steps before the assertion go
    through (the cross correlation model exists, there is at least one
    intensity measure), the exception is the AssertionError
    'Too many sites: N'. *)
Theorem too_many_sites_fails_fast (ds : dstore R ctx_t) (imt1 imt2 : imt_t)
        (name : cc_name_t) (meabins sigbins : bins_t) (tr : list (event R ctx_t)) :
  10 < sitecol_len ds ->
  (exists log e,
      main calc_mean_rate_dist new_crosscorr starmap_reduce
        ds imt1 imt2 name meabins sigbins tr = (tr ++ log, Raise e) /\
      Forall (@is_log R ctx_t) log) /\
  (forall cc, new_crosscorr name = OK cc -> imtls_len ds <> 0 ->
     main calc_mean_rate_dist new_crosscorr starmap_reduce
       ds imt1 imt2 name meabins sigbins tr =
     (tr ++ level_warning ds, Raise (AssertionError (sitecol_len ds)))).
Proof.
  intros HN.
  assert (Hleb : (sitecol_len ds <=? 10) = false) by (apply Nat.leb_gt; lia).
  assert (Hmain : forall cc, new_crosscorr name = OK cc -> imtls_len ds <> 0 ->
     main calc_mean_rate_dist new_crosscorr starmap_reduce
       ds imt1 imt2 name meabins sigbins tr =
     (tr ++ level_warning ds, Raise (AssertionError (sitecol_len ds)))).
  { intros cc Hcc Hlen.
    unfold main, mbind, lift, floor_div, level_warning, num_bins. rewrite Hcc.
    destruct (Z.of_nat (imtls_len ds) =? 0)%Z eqn:H0; [apply Z.eqb_eq in H0; lia|].
    rewrite Hleb.
    destruct (24 <? Z.of_nat (imtls_size ds) / Z.of_nat (imtls_len ds) - 1)%Z;
      unfold emit, ret; simpl; now rewrite ?app_nil_r. }
  split; [|exact Hmain].
  destruct (new_crosscorr name) as [cc|e] eqn:Hcc.
  - destruct (Nat.eq_dec (imtls_len ds) 0) as [Hz|Hnz].
    + exists [], ZeroDivisionError. split; [|constructor].
      unfold main, mbind, lift, floor_div. rewrite Hcc, Hz. simpl.
      now rewrite app_nil_r.
    + exists (level_warning ds), (AssertionError (sitecol_len ds)).
      split; [now apply (Hmain cc)|apply level_warning_is_log].
  - exists [], e. split; [|constructor].
    unfold main, mbind, lift. rewrite Hcc. now rewrite app_nil_r.
Qed.

Lemma by_gidx_keys (mrd : array4 R) (gs : list nat) :
  forall (i : nat) (d : dict (ndarray R)),
    i + length gs <= snd (shape4 mrd) ->
    exists d', by_gidx mrd i gs d = OK d' /\
               forall g, In g (keys d') <-> In g gs \/ In g (keys d).
Proof.
  induction gs as [|g0 gs IH]; intros i d Hi; simpl in *.
  - exists d. intuition.
  - unfold slice_g. destruct (shape4 mrd) as [[[l1 l2] n] G] eqn:Hshape.
    simpl in Hi.
    destruct (i <? G) eqn:HiG; [|apply Nat.ltb_ge in HiG; lia].
    simpl.
    match goal with
    | |- context [by_gidx _ _ _ ?d0] =>
        destruct (IH (S i) d0) as [d' [Hrun Hkeys]]
    end.
    + rewrite ?Hshape. simpl. lia.
    + exists d'. split; [exact Hrun|].
      intros g. rewrite Hkeys, dict_set_keys. intuition.
Qed.

(** C9, as the code has it.  The keys of the partial result of a unit are
    the sub-model indices [gidx] of the binding of the group the unit was
    cut from, whichever slice of the group the unit carries: a sub-model
    index is in the partial result of every unit of its group, that is of
    as many units as the group has slices.  (The kernel has to return one
    layer per index for [compute_mrd] to return at all.) *)
Theorem partial_result_keys (cms : list ContextMaker) (n : nat) (blocksize : Z)
        (gc : nat * list ctx_t) (cm : ContextMaker) (inp : Input ctx_t)
        (crosscorr : crosscorr_t) (imt1 imt2 : imt_t) (meabins sigbins : bins_t) :
  nth_error cms (fst gc) = Some cm ->
  In inp (units_of_group cms n blocksize gc) ->
  length (gidx cm) <=
  snd (shape4 (calc_mean_rate_dist (ctx inp) (N inp) (cmaker inp)
                 crosscorr imt1 imt2 meabins sigbins)) ->
  exists d,
    compute_mrd calc_mean_rate_dist inp crosscorr imt1 imt2 meabins sigbins = OK d /\
    forall g, In g (keys d) <-> In g (gidx cm).
Proof.
  intros Hcm Hin HG.
  assert (Hbinding : cmaker inp = cm).
  { unfold units_of_group in Hin. rewrite Hcm in Hin.
    destruct (gen_slices 0 (length (snd gc)) blocksize) as [slcs|e];
      [|contradiction].
    apply in_map_iff in Hin. destruct Hin as [slc [Hinp _]]. now subst inp. }
  unfold compute_mrd. rewrite Hbinding.
  match goal with
  | |- context [by_gidx ?m 0 _ _] =>
      destruct (@by_gidx_keys m (gidx cm) 0 []) as [d [Hrun Hkeys]]
  end.
  - rewrite <- Hbinding at 2. simpl. exact HG.
  - exists d. split; [exact Hrun|].
    intros g. rewrite Hkeys. simpl. intuition.
Qed.

End CalculatorFacts.

(** ** Worked examples on integers *)

Lemma Z_semi_ring : semi_ring_theory (@rO Z _) rI radd rmul eq.
Proof.
  constructor; intros; unfold rO, rI, radd, rmul, Z_scalar; lia.
Qed.

Ltac check_data :=
  repeat first
    [ reflexivity
    | discriminate
    | progress (simpl; lia)
    | apply Forall_nil
    | apply Forall_cons
    | split ].

Module Examples.

Import Scenario.

(** C2 fails as stated: the second partial array has shape (1, 1, 1), the
    first (2, 2, 1); nothing is raised and the second array is stretched
    over the output. *)
Lemma shape_mismatch_accepted :
  let acc := [(0, full [2; 2; 1] 1%Z); (1, full [1; 1; 1] 5%Z)] in
  let tbl := mk_rlzs_by_g [[0]; [1]] [6; 4]%Z in
  shape (full [1; 1; 1] 5%Z) <> shape (full [2; 2; 1] 1%Z) /\
  combine_mrds acc tbl = OK (full [2; 2; 1] 26%Z).
Proof. split; [discriminate | reflexivity]. Qed.

Lemma combine_mrds_shape_check_witness :
  let acc := [(0, full [2; 2; 1] 1%Z); (1, full [3; 1; 1] 5%Z)] in
  let tbl := mk_rlzs_by_g [[0]; [1]] [6; 4]%Z in
  table_covers tbl acc /\ combine_mrds acc tbl = Raise ValueError.
Proof.
  intros acc tbl.
  assert (Ht : table_covers tbl acc) by (unfold table_covers; check_data).
  split; [exact Ht|].
  apply (@combine_mrds_shape_check Z _ acc tbl); [discriminate | exact Ht].
Defined.

(** C4 fails as stated: the binding declares the indices 0 and 1 and the
    table has a row for both, the collection holds index 0 only; nothing is
    raised and the array returned is the term of index 0 alone. *)
Lemma missing_index_not_detected :
  let tbl := mk_rlzs_by_g [[0]; [1]] [6; 4]%Z in
  ~ In 1 (keys [(0, full [2; 2; 1] 1%Z)]) /\
  combine_mrds [(0, full [2; 2; 1] 1%Z)] tbl = OK (full [2; 2; 1] 6%Z) /\
  combine_mrds [(0, full [2; 2; 1] 1%Z); (1, full [2; 2; 1] 2%Z)] tbl
  = OK (full [2; 2; 1] 14%Z).
Proof.
  split; [simpl; intuition discriminate|]. split; reflexivity.
Qed.

Lemma too_many_sites_fails_fast_witness :
  10 < sitecol_len (store 11 4 twelve) /\
  run (store 11 4 twelve) = ([], Raise (AssertionError 11)).
Proof.
  split; [simpl; lia|].
  apply (proj2 (@too_many_sites_fails_fast Z _ nat unit unit unit unit
                  stub_kernel (fun _ => OK tt) stub_reduce
                  (store 11 4 twelve) tt tt tt tt tt []
                  ltac:(simpl; lia)) tt eq_refl ltac:(discriminate)).
Defined.

(** C5 fails as stated: of two groups of 4 and 8 records cut for T = 4,
    the first would get the block size [ceil(4 / 4) = 1] and four slices
    of one record; the block size is [ceil(12 / 4) = 3] and the first
    group is cut in two slices of 3 and 1 records. *)
Lemma blocksize_not_per_group :
  ceil_div 4 4 = OK 1%Z /\
  ceil_div (Z.of_nat (num_contexts four_and_eight)) 4 = OK 3%Z /\
  unit_sizes (store 1 4 four_and_eight) = [3; 1; 3; 3; 2] /\
  map (@ctx nat)
    (units_of_group (cmakers (store 1 4 four_and_eight)) 1 3 (0, seq 0 4))
  = [[0; 1; 2]; [3]].
Proof. repeat split. Qed.


(** C8 fails as stated: the units are not three of 4 records. *)
Lemma twelve_by_four_not_three_slices :
  unit_sizes (store 1 4 twelve) <> [4; 4; 4].
Proof. discriminate. Qed.

(** C8, as the code has it.  A single group of 12 records cut for T = 4
    has the block size [ceil(12 / 4) = 3] and is submitted as 4 units of
    sizes [3, 3, 3, 3]. *)
Theorem twelve_by_four_slices :
  ceil_div (Z.of_nat (num_contexts twelve)) 4 = OK 3%Z /\
  unit_sizes (store 1 4 twelve) = [3; 3; 3; 3].
Proof. split; reflexivity. Qed.

(** C9 fails as stated: the four units cut from the one group all return
    a partial result with the sub-model indices 0 and 1. *)
Lemma index_in_every_unit_of_group :
  map (fun inp => map_result keys (compute_mrd stub_kernel inp tt tt tt tt tt))
    (submitted (fst (run (store 1 4 twelve))))
  = [OK [0; 1]; OK [0; 1]; OK [0; 1]; OK [0; 1]].
Proof. reflexivity. Qed.

Lemma partial_result_keys_witness :
  let inp := new_Input [3; 4; 5] (mk_cmaker [0; 1]) 1 in
  exists d,
    compute_mrd stub_kernel inp tt tt tt tt tt = OK d /\
    forall g, In g (keys d) <-> In g [0; 1].
Proof.
  intros inp.
  apply (@partial_result_keys Z nat unit unit unit stub_kernel
           [mk_cmaker [0; 1]] 1 3%Z (0, seq 0 12) (mk_cmaker [0; 1]) inp
           tt tt tt tt tt).
  - reflexivity.
  - simpl. right. left. reflexivity.
  - simpl. lia.
Defined.

End Examples.

(** * Further properties *)

(** ** The unit computation *)

Lemma dict_set_fresh {V : Type} (k : nat) (v : V) (d : dict V) :
  ~ In k (keys d) -> dict_set k v d = d ++ [(k, v)].
Proof.
  induction d as [|[k' v'] d IH]; simpl; intros Hk; auto.
  destruct (Nat.eqb k k') eqn:E.
  - apply Nat.eqb_eq in E. subst k'. tauto.
  - rewrite IH; [reflexivity | tauto].
Qed.

Lemma dict_set_nodup {V : Type} (k : nat) (v : V) (d : dict V) :
  NoDup (keys d) -> NoDup (keys (dict_set k v d)).
Proof.
  induction d as [|[k' v'] d IH]; simpl; intros Hd.
  - constructor; [tauto | constructor].
  - inversion Hd as [|? ? Hk' Hd']; subst.
    destruct (Nat.eqb k k') eqn:E; simpl.
    + apply Nat.eqb_eq in E. subst k'. now constructor.
    + constructor; [|now apply IH].
      rewrite dict_set_keys. apply Nat.eqb_neq in E. intros [H|H]; congruence.
Qed.

Lemma dict_set_values {V : Type} (P : V -> Prop) (k : nat) (v : V) (d : dict V) :
  P v -> Forall (fun kv => P (snd kv)) d ->
  Forall (fun kv => P (snd kv)) (dict_set k v d).
Proof.
  intros Hv. induction 1 as [|[k' v'] d Hk' Hd IH]; simpl.
  - now repeat constructor.
  - destruct (Nat.eqb k k'); constructor; auto.
Qed.

Lemma picks_nth_error {A : Type} (G i : nat) :
  i < G ->
  forall (k : nat) (d : list A) (j : nat),
    length d = k * G -> j < k ->
    nth_error (flat_map (pick i) (chunks G k d)) j = nth_error d (j * G + i).
Proof.
  intros Hi. induction k as [|k IH]; intros d j Hlen Hj; [lia|].
  simpl. unfold pick at 1. rewrite nth_error_firstn.
  destruct (Nat.ltb_spec i G) as [_|Hge]; [|lia].
  destruct (nth_error d i) as [x|] eqn:Hx.
  - destruct j as [|j]; simpl.
    + now rewrite Hx.
    + rewrite IH by (rewrite ?length_skipn; simpl in Hlen; lia).
      rewrite nth_error_skipn. f_equal. lia.
  - apply nth_error_None in Hx. simpl in Hlen. lia.
Qed.

Lemma picks_length {A : Type} (G i : nat) :
  i < G ->
  forall (k : nat) (d : list A),
    length d = k * G -> length (flat_map (pick i) (chunks G k d)) = k.
Proof.
  intros Hi. induction k as [|k IH]; intros d Hlen; simpl; auto.
  rewrite length_app, IH by (rewrite length_skipn; simpl in Hlen; lia).
  unfold pick. rewrite nth_error_firstn.
  destruct (Nat.ltb_spec i G) as [_|Hge]; [|lia].
  destruct (nth_error d i) as [x|] eqn:Hx; simpl; auto.
  apply nth_error_None in Hx. simpl in Hlen. lia.
Qed.

Section ComputeFacts.

Variables R ctx_t crosscorr_t imt_t bins_t : Type.
Variable calc_mean_rate_dist :
  list ctx_t -> nat -> ContextMaker -> crosscorr_t ->
  imt_t -> imt_t -> bins_t -> bins_t -> array4 R.

Lemma slice_g_in_range (mrd : array4 R) (i : nat) :
  i < num_layers mrd -> slice_g mrd i = OK (layer mrd i).
Proof.
  unfold slice_g, layer, layer_shape, num_layers.
  destruct (shape4 mrd) as [[[l1 l2] n] G]. simpl. intros Hi.
  destruct (Nat.ltb_spec i G); [|lia].
  now rewrite Nat.mul_1_r, Nat.mul_assoc.
Qed.

Lemma slice_g_out_of_range (mrd : array4 R) (i : nat) :
  num_layers mrd <= i -> slice_g mrd i = Raise IndexError.
Proof.
  unfold slice_g, num_layers.
  destruct (shape4 mrd) as [[[l1 l2] n] G]. simpl. intros Hi.
  destruct (Nat.ltb_spec i G); [lia|reflexivity].
Qed.

Lemma layer_has_shape {scalar : Scalar R} (mrd : array4 R) (i : nat) :
  wf_array4 mrd -> i < num_layers mrd ->
  has_shape (layer_shape mrd) (layer mrd i).
Proof.
  intros Hwf Hi. split; [reflexivity|]. simpl.
  now apply picks_length.
Qed.

(** X4. The layer [mrd[:, :, :, i]] holds at (row-major) position [j]
    the element of the matrix at position [j * G + i], that is the
    element with last index [i] of the [j]-th cell. *)
Theorem layer_elements (mrd : array4 R) (i j : nat) :
  wf_array4 mrd -> i < num_layers mrd -> j < size_of (layer_shape mrd) ->
  slice_g mrd i = OK (layer mrd i) /\
  nth_error (data (layer mrd i)) j =
  nth_error (data4 mrd) (j * num_layers mrd + i).
Proof.
  intros Hwf Hi Hj. split; [now apply slice_g_in_range|].
  simpl. now apply picks_nth_error.
Qed.

Lemma by_gidx_exact (mrd : array4 R) (gs : list nat) :
  forall (i : nat) (d : dict (ndarray R)),
    NoDup gs -> (forall g, In g gs -> ~ In g (keys d)) ->
    i + length gs <= num_layers mrd ->
    by_gidx mrd i gs d =
    OK (d ++ combine gs (map (layer mrd) (seq i (length gs)))).
Proof.
  induction gs as [|g gs IH]; intros i d Hnd Hfresh Hi; simpl in *.
  - now rewrite app_nil_r.
  - inversion Hnd as [|? ? Hg Hnd']; subst.
    rewrite slice_g_in_range by lia. simpl.
    rewrite dict_set_fresh by (apply Hfresh; auto).
    rewrite (IH (S i) (d ++ [(g, layer mrd i)]) Hnd').
    + now rewrite <- app_assoc.
    + intros g' Hin. unfold keys. rewrite map_app, in_app_iff. simpl.
      intros [H|[H|[]]]; [apply (Hfresh g'); auto | congruence].
    + lia.
Qed.

Lemma by_gidx_too_few (mrd : array4 R) (gs : list nat) :
  forall (i : nat) (d : dict (ndarray R)),
    i <= num_layers mrd -> num_layers mrd < i + length gs ->
    by_gidx mrd i gs d = Raise IndexError.
Proof.
  induction gs as [|g gs IH]; intros i d Hlo Hhi; simpl in *; [lia|].
  destruct (Nat.eq_dec i (num_layers mrd)) as [->|Hne].
  - now rewrite slice_g_out_of_range.
  - rewrite slice_g_in_range by lia. simpl. apply IH; lia.
Qed.

Lemma by_gidx_invariant (P : dict (ndarray R) -> Prop) (mrd : array4 R)
      (gs : list nat) :
  (forall g i d, i < num_layers mrd -> P d -> P (dict_set g (layer mrd i) d)) ->
  forall (i : nat) (d d' : dict (ndarray R)),
    P d -> by_gidx mrd i gs d = OK d' -> P d'.
Proof.
  intros Hstep. induction gs as [|g gs IH]; intros i d d' Hd Hrun; simpl in *.
  - now inversion Hrun; subst.
  - destruct (Nat.lt_ge_cases i (num_layers mrd)) as [Hi|Hi].
    + rewrite slice_g_in_range in Hrun by exact Hi. simpl in Hrun.
      eapply IH; [|exact Hrun]. now apply Hstep.
    + rewrite slice_g_out_of_range in Hrun by exact Hi. discriminate.
Qed.

(** X1. When the binding lists distinct sub-model indices and the kernel
    returns at least one layer per index, [compute_mrd] returns the
    dictionary that maps, in the order of [gidx], the index at position
    [i] to the layer [i] of the matrix. *)
Theorem compute_mrd_exact (inp : Input ctx_t) (crosscorr : crosscorr_t)
        (imt1 imt2 : imt_t) (meabins sigbins : bins_t) :
  let mrd := calc_mean_rate_dist (ctx inp) (N inp) (cmaker inp) crosscorr
               imt1 imt2 meabins sigbins in
  let gs := gidx (cmaker inp) in
  NoDup gs -> length gs <= num_layers mrd ->
  compute_mrd calc_mean_rate_dist inp crosscorr imt1 imt2 meabins sigbins =
  OK (combine gs (map (layer mrd) (seq 0 (length gs)))).
Proof.
  intros mrd gs Hnd HG. unfold compute_mrd. fold mrd. fold gs.
  rewrite by_gidx_exact; auto.
Qed.

(** X2. When the kernel returns fewer layers than the binding has
    sub-model indices, [compute_mrd] raises IndexError and returns no
    partial result. *)
Theorem compute_mrd_too_few_layers (inp : Input ctx_t) (crosscorr : crosscorr_t)
        (imt1 imt2 : imt_t) (meabins sigbins : bins_t) :
  num_layers (calc_mean_rate_dist (ctx inp) (N inp) (cmaker inp) crosscorr
                imt1 imt2 meabins sigbins)
  < length (gidx (cmaker inp)) ->
  compute_mrd calc_mean_rate_dist inp crosscorr imt1 imt2 meabins sigbins =
  Raise IndexError.
Proof.
  intros HG. unfold compute_mrd. apply by_gidx_too_few; simpl; lia.
Qed.

Lemma compute_mrd_shapes {scalar : Scalar R} (inp : Input ctx_t)
      (crosscorr : crosscorr_t) (imt1 imt2 : imt_t) (meabins sigbins : bins_t)
      (d : dict (ndarray R)) :
  let mrd := calc_mean_rate_dist (ctx inp) (N inp) (cmaker inp) crosscorr
               imt1 imt2 meabins sigbins in
  compute_mrd calc_mean_rate_dist inp crosscorr imt1 imt2 meabins sigbins = OK d ->
  wf_array4 mrd -> Forall (fun ga => has_shape (layer_shape mrd) (snd ga)) d.
Proof.
  intros mrd Hrun Hwf. unfold compute_mrd in Hrun. fold mrd in Hrun.
  eapply (by_gidx_invariant
            (fun d => Forall (fun ga => has_shape (layer_shape mrd) (snd ga)) d));
    [| |exact Hrun].
  - intros g i d0 Hi Hd0.
    apply (dict_set_values (fun a => has_shape (layer_shape mrd) a)); auto.
    now apply layer_has_shape.
  - constructor.
Qed.

(** X3. Whatever the binding lists (repeated indices included), the
    partial result [compute_mrd] returns has distinct keys, and when the
    matrix of the kernel is well formed all its arrays have the shape
    (L1, L1, N) of the layers and as many elements. *)
Theorem compute_mrd_result_uniform {scalar : Scalar R} (inp : Input ctx_t)
        (crosscorr : crosscorr_t) (imt1 imt2 : imt_t) (meabins sigbins : bins_t)
        (d : dict (ndarray R)) :
  let mrd := calc_mean_rate_dist (ctx inp) (N inp) (cmaker inp) crosscorr
               imt1 imt2 meabins sigbins in
  compute_mrd calc_mean_rate_dist inp crosscorr imt1 imt2 meabins sigbins = OK d ->
  NoDup (keys d) /\
  (wf_array4 mrd -> Forall (fun ga => has_shape (layer_shape mrd) (snd ga)) d).
Proof.
  intros mrd Hrun. unfold compute_mrd in Hrun. fold mrd in Hrun. split.
  - eapply (by_gidx_invariant (fun d => NoDup (keys d))); [| |exact Hrun].
    + intros g i d0 _ Hd0. now apply dict_set_nodup.
    + constructor.
  - intros Hwf. now apply compute_mrd_shapes.
Qed.

End ComputeFacts.

(** ** More on the combiner *)

Lemma size_of_pad_ones (k : nat) (shp : list nat) :
  size_of (pad_ones k shp) = size_of shp.
Proof.
  unfold pad_ones. induction k as [|k IH]; simpl; auto.
  unfold size_of in *. simpl in *. lia.
Qed.

Lemma length_concat_repeat {A : Type} (l : list A) (n : nat) :
  length (concat (repeat l n)) = n * length l.
Proof.
  induction n as [|n IH]; simpl; auto. now rewrite length_app, IH.
Qed.

Lemma length_flat_map_const {A B : Type} (f : A -> list B) (l : list A) (k : nat) :
  Forall (fun x => length (f x) = k) l -> length (flat_map f l) = length l * k.
Proof.
  induction 1 as [|x l Hx _ IH]; simpl; auto.
  now rewrite length_app, Hx, IH.
Qed.

Lemma chunks_length {A : Type} (k n : nat) (d : list A) :
  length (chunks k n d) = n.
Proof. revert d; induction n as [|n IH]; intros d; simpl; auto. Qed.

Lemma broadcast_data_length {A : Type} (src : list nat) :
  forall (dst : list nat) (d : list A),
    broadcastable src dst = true -> length d = size_of src ->
    length (broadcast_data src dst d) = size_of dst.
Proof.
  induction src as [|m src IH]; intros [|n dst] d Hb Hlen; simpl in *;
    try discriminate; auto.
  apply andb_prop in Hb. destruct Hb as [Hmn Hb].
  change (fold_right Nat.mul 1 src) with (size_of src) in *.
  change (fold_right Nat.mul 1 dst) with (size_of dst).
  destruct (Nat.eqb m n) eqn:E.
  - apply Nat.eqb_eq in E. subst n.
    rewrite (@length_flat_map_const _ _ _ _ (size_of dst)).
    + now rewrite chunks_length.
    + eapply Forall_impl; [|apply chunks_length_each; exact Hlen].
      intros c Hc. now apply IH.
  - simpl in Hmn. apply Nat.eqb_eq in Hmn. subst m.
    rewrite length_concat_repeat, IH; auto. lia.
Qed.

Section CombinerMore.

Context {R : Type} {scalar : Scalar R}.

Lemma for_g_app (rlzs_ : list (list nat)) (weig : list R)
      (l1 l2 : dict (ndarray R)) (out : ndarray R) :
  for_g rlzs_ weig (l1 ++ l2) out =
  (out' <- for_g rlzs_ weig l1 out ;; for_g rlzs_ weig l2 out').
Proof.
  revert out; induction l1 as [|[g a] l1 IH]; intros out; simpl; auto.
  destruct (getitem rlzs_ g) as [rs|e]; simpl; auto.
  destruct (for_rlzs weig a rs out) as [out'|e]; simpl; auto.
Qed.

Lemma iadd_has_shape (shp : list nat) (out x out' : ndarray R) :
  has_shape shp out -> wf_array x -> iadd out x = OK out' ->
  has_shape shp out'.
Proof.
  intros [Hs Hl] Hx. unfold iadd, broadcasts_to.
  destruct (length (shape x) <=? length (shape out)) eqn:Hle; simpl;
    [|discriminate].
  destruct (broadcastable _ (shape out)) eqn:Hb; [|discriminate].
  intros H; inversion H; subst out'; clear H. split; simpl; auto.
  rewrite zip_with_length, (@broadcast_data_length _ _ _ _ Hb).
  - rewrite Hs in *. lia.
  - rewrite size_of_pad_ones. exact Hx.
Qed.

Lemma for_rlzs_has_shape (shp : list nat) (weig : list R) (value : ndarray R)
      (rs : list nat) :
  wf_array value ->
  forall out out', has_shape shp out ->
    for_rlzs weig value rs out = OK out' -> has_shape shp out'.
Proof.
  intros Hv. induction rs as [|r rs IH]; intros out out' Ho Hrun; simpl in *.
  - now inversion Hrun; subst.
  - unfold add_weighted in Hrun.
    destruct (getitem weig r) as [w|e]; simpl in Hrun; [|discriminate].
    destruct (iadd out (scalar_mul w value)) as [o|e] eqn:Hadd; simpl in Hrun;
      [|discriminate].
    apply (IH o out'); auto.
    eapply iadd_has_shape; [exact Ho | | exact Hadd].
    unfold wf_array, scalar_mul; simpl. now rewrite length_map.
Qed.

Lemma for_g_has_shape (shp : list nat) (rlzs_ : list (list nat)) (weig : list R)
      (acc : dict (ndarray R)) :
  Forall (fun ga => wf_array (snd ga)) acc ->
  forall out out', has_shape shp out ->
    for_g rlzs_ weig acc out = OK out' -> has_shape shp out'.
Proof.
  induction 1 as [|[g a] acc Ha _ IH]; intros out out' Ho Hrun; simpl in *.
  - now inversion Hrun; subst.
  - destruct (getitem rlzs_ g) as [rs|e]; simpl in Hrun; [|discriminate].
    destruct (for_rlzs weig a rs out) as [o|e] eqn:Hin; simpl in Hrun;
      [|discriminate].
    apply (IH o out'); auto.
    eapply for_rlzs_has_shape; eauto.
Qed.

Lemma combine_mrds_has_shape (acc : dict (ndarray R)) (tbl : rlzs_by_g_t R)
      (out : ndarray R) :
  Forall (fun ga => wf_array (snd ga)) acc ->
  combine_mrds acc tbl = OK out -> has_shape (anchor_shape acc) out.
Proof.
  intros Hwf Hrun. destruct acc as [|[g a] acc']; [discriminate|].
  unfold combine_mrds in Hrun. simpl anchor_shape.
  eapply for_g_has_shape; [exact Hwf | apply has_shape_zeros | exact Hrun].
Qed.

(** X5. On well-formed arrays, whatever [combine_mrds] returns has the
    shape of the first partial array and as many elements as that shape
    says; and it does return when the table covers the collection and
    every array that is added can be broadcast to that shape. *)
Theorem combine_mrds_output_well_formed (acc : dict (ndarray R))
        (tbl : rlzs_by_g_t R) :
  Forall (fun ga => wf_array (snd ga)) acc ->
  (forall out, combine_mrds acc tbl = OK out ->
               has_shape (anchor_shape acc) out) /\
  (acc <> [] -> table_covers tbl acc ->
   forallb (accepted tbl (anchor_shape acc)) acc = true ->
   exists out, combine_mrds acc tbl = OK out /\
               has_shape (anchor_shape acc) out).
Proof.
  intros Hwf.
  assert (Hinv : forall out, combine_mrds acc tbl = OK out ->
                             has_shape (anchor_shape acc) out)
    by (intros out Hrun; now apply (@combine_mrds_has_shape acc tbl out Hwf)).
  split; [exact Hinv|].
  intros Hne Hcov Hacc. destruct acc as [|[g a] acc']; [congruence|].
  pose proof (@for_g_shape_check R scalar tbl (shape a) ((g, a) :: acc')
                (zeros (shape a)) eq_refl Hcov) as Hchk.
  simpl anchor_shape in *. rewrite Hacc in Hchk.
  destruct Hchk as [out [Hrun _]]. exists out. split; [exact Hrun|].
  now apply Hinv.
Qed.

Lemma iadd_keeps_shape (out x out' : ndarray R) :
  iadd out x = OK out' -> shape out' = shape out.
Proof.
  unfold iadd.
  destruct (broadcasts_to (shape x) (shape out)); intros H; inversion H; auto.
Qed.

Lemma for_rlzs_keeps_shape (weig : list R) (value : ndarray R) (rs : list nat) :
  forall out out', for_rlzs weig value rs out = OK out' -> shape out' = shape out.
Proof.
  induction rs as [|r rs IH]; intros out out' Hrun; simpl in *.
  - now inversion Hrun.
  - unfold add_weighted in Hrun.
    destruct (getitem weig r) as [w|e]; simpl in Hrun; [|discriminate].
    destruct (iadd out (scalar_mul w value)) as [o|e] eqn:Hadd; simpl in Hrun;
      [|discriminate].
    rewrite (IH _ _ Hrun). now apply iadd_keeps_shape in Hadd.
Qed.

Lemma for_rlzs_raises (weig : list R) (value : ndarray R) (rs : list nat) :
  forall out e,
    for_rlzs weig value rs out = Raise e ->
    e = IndexError \/
    (e = ValueError /\ rs <> [] /\
     broadcasts_to (shape value) (shape out) = false).
Proof.
  induction rs as [|r rs IH]; intros out e Hrun; simpl in *; [discriminate|].
  unfold add_weighted in Hrun.
  destruct (getitem weig r) as [w|e'] eqn:Hw; simpl in Hrun.
  - destruct (iadd out (scalar_mul w value)) as [o|e''] eqn:Hadd; simpl in Hrun.
    + destruct (IH _ _ Hrun) as [H|[H1 [H2 H3]]]; [now left|right].
      apply iadd_keeps_shape in Hadd. rewrite Hadd in H3.
      repeat split; auto. discriminate.
    + right. unfold iadd in Hadd. simpl in Hadd.
      destruct (broadcasts_to (shape value) (shape out)); [discriminate|].
      inversion Hadd; inversion Hrun; subst. repeat split; auto. discriminate.
  - unfold getitem in Hw. destruct (nth_error weig r); inversion Hw.
    inversion Hrun; subst. now left.
Qed.

Lemma for_g_raises (tbl : rlzs_by_g_t R) (shp : list nat) (acc : dict (ndarray R)) :
  forall out e,
    shape out = shp ->
    for_g (rlzs tbl) (weight tbl) acc out = Raise e ->
    e = IndexError \/
    (e = ValueError /\ forallb (accepted tbl shp) acc = false).
Proof.
  induction acc as [|[g a] acc IH]; intros out e Ho Hrun; simpl in *;
    [discriminate|].
  unfold getitem in Hrun.
  destruct (nth_error (rlzs tbl) g) as [rs|] eqn:Hg; simpl in Hrun.
  - assert (Hrs : rlzs_of tbl g = rs)
      by (unfold rlzs_of; now apply nth_error_nth).
    destruct (for_rlzs (weight tbl) a rs out) as [o|e'] eqn:Hin; simpl in Hrun.
    + apply for_rlzs_keeps_shape in Hin.
      destruct (IH o e) as [H|[H1 H2]]; auto; [congruence|].
      right. split; auto. rewrite H2. apply andb_false_r.
    + inversion Hrun; subst e'.
      destruct (for_rlzs_raises _ _ _ _ Hin) as [H|[H1 [H2 H3]]]; [now left|].
      right. split; auto. unfold accepted at 1. simpl. rewrite Hrs.
      rewrite Ho in H3. destruct rs; [congruence|]. now rewrite H3.
  - inversion Hrun. now left.
Qed.

(** X6. The exceptions of [combine_mrds] and their causes: StopIteration
    for an empty collection and only then; IndexError only when the table
    lacks a row or a weight for the collection; ValueError only when some
    array that is added cannot be broadcast to the shape of the first;
    nothing else is ever raised. *)
Theorem combine_mrds_exceptions (acc : dict (ndarray R)) (tbl : rlzs_by_g_t R)
        (e : exn) :
  combine_mrds acc tbl = Raise e ->
  (e = StopIteration /\ acc = []) \/
  (e = IndexError /\ acc <> [] /\ ~ table_covers tbl acc) \/
  (e = ValueError /\ acc <> [] /\
   forallb (accepted tbl (anchor_shape acc)) acc = false).
Proof.
  intros Hrun. destruct acc as [|[g a] acc'].
  - inversion Hrun. now left.
  - right. unfold combine_mrds in Hrun. simpl anchor_shape.
    destruct (@for_g_raises tbl (shape a) ((g, a) :: acc') (zeros (shape a)) e
                eq_refl Hrun)
      as [H|[H1 H2]].
    + left. subst e. repeat split; [discriminate|].
      intros Hcov.
      pose proof (@for_g_shape_check R scalar tbl (shape a) ((g, a) :: acc')
                    (zeros (shape a)) eq_refl Hcov) as Hchk.
      destruct (forallb (accepted tbl (shape a)) ((g, a) :: acc')).
      * destruct Hchk as [out [Hok _]]. congruence.
      * congruence.
    + right. repeat split; auto. discriminate.
Qed.

(** X7. A sub-model index without a row in the table makes
    [combine_mrds] raise IndexError, when the entries before it go through
    (the table covers them and their arrays can be added). *)
Theorem combine_mrds_missing_row (pre post : dict (ndarray R)) (g : nat)
        (a : ndarray R) (tbl : rlzs_by_g_t R) :
  let acc := pre ++ (g, a) :: post in
  table_covers tbl pre ->
  forallb (accepted tbl (anchor_shape acc)) pre = true ->
  length (rlzs tbl) <= g ->
  combine_mrds acc tbl = Raise IndexError.
Proof.
  intros acc Hcov Hacc Hg. subst acc.
  assert (Hget : getitem (rlzs tbl) g = Raise IndexError).
  { unfold getitem. now rewrite (proj2 (nth_error_None _ _) Hg). }
  assert (Hrun : forall out,
             shape out = anchor_shape (pre ++ (g, a) :: post) ->
             for_g (rlzs tbl) (weight tbl) (pre ++ (g, a) :: post) out
             = Raise IndexError).
  { intros out Ho. rewrite for_g_app.
    pose proof (@for_g_shape_check R scalar tbl _ pre out Ho Hcov) as Hchk.
    rewrite Hacc in Hchk. destruct Hchk as [out' [Hok _]].
    rewrite Hok. simpl. now rewrite Hget. }
  remember (pre ++ (g, a) :: post) as acc eqn:Eacc.
  destruct acc as [|[g0 a0] acc0].
  - destruct pre; discriminate.
  - unfold combine_mrds. apply Hrun. reflexivity.
Qed.

(** X8. An entry whose sub-model index has a row with no realization,
    anywhere but in first position, contributes nothing, whatever its
    array: [combine_mrds] returns (or raises) the same as without it. *)
Theorem combine_mrds_no_realization (pre post : dict (ndarray R)) (g : nat)
        (a : ndarray R) (tbl : rlzs_by_g_t R) :
  pre <> [] ->
  nth_error (rlzs tbl) g = Some [] ->
  combine_mrds (pre ++ (g, a) :: post) tbl = combine_mrds (pre ++ post) tbl.
Proof.
  intros Hne Hg. destruct pre as [|[g0 a0] pre']; [congruence|].
  unfold combine_mrds. rewrite <- !app_comm_cons.
  rewrite !app_comm_cons, !for_g_app.
  destruct (for_g (rlzs tbl) (weight tbl) ((g0, a0) :: pre') (zeros (shape a0)))
    as [out|e]; simpl; auto.
  unfold getitem. now rewrite Hg.
Qed.

End CombinerMore.

(** ** More on the combiner, in exact arithmetic *)

Section CombinerAlgebra.

Context {R : Type} {scalar : Scalar R}.
Hypothesis SRth : semi_ring_theory rO rI radd rmul (@eq R).

Add Ring scalar_semiring : SRth.

Lemma zip_add_comm (a b : list R) : zip_with radd a b = zip_with radd b a.
Proof.
  revert b; induction a as [|x a IH]; intros [|y b]; simpl; auto.
  rewrite IH. f_equal. ring.
Qed.

Lemma zip_add_interchange (a b c d : list R) :
  zip_with radd (zip_with radd a b) (zip_with radd c d) =
  zip_with radd (zip_with radd a c) (zip_with radd b d).
Proof.
  revert b c d; induction a as [|x a IH]; intros [|y b] [|z c] [|t d];
    simpl; auto.
  rewrite IH. f_equal. ring.
Qed.

Lemma aadd_comm (shp : list nat) (a b : ndarray R) :
  has_shape shp a -> has_shape shp b -> aadd a b = aadd b a.
Proof.
  intros [Ha _] [Hb _]. unfold aadd. rewrite Ha, Hb. f_equal.
  apply zip_add_comm.
Qed.

Lemma sum_arrays_perm (shp : list nat) (l l' : list (ndarray R)) :
  Permutation l l' -> Forall (has_shape shp) l ->
  sum_arrays shp l = sum_arrays shp l'.
Proof.
  induction 1 as [|x l l' Hp IH|x y l|l l' l'' Hp1 IH1 Hp2 IH2]; intros Hl;
    simpl; auto.
  - inversion Hl; subst. now rewrite IH.
  - inversion Hl as [|? ? Hy Hl']; subst. inversion Hl' as [|? ? Hx Hl'']; subst.
    rewrite <- !(aadd_assoc SRth). f_equal. now apply (aadd_comm (shp := shp)).
  - rewrite IH1 by exact Hl. apply IH2.
    now rewrite <- Hp1.
Qed.

(** X9. The order of the entries does not matter: on arrays of one shape
    and a table that covers them, [combine_mrds] returns the same array
    for every rearrangement of the collection. *)
Theorem combine_mrds_order (acc acc' : dict (ndarray R)) (tbl : rlzs_by_g_t R) :
  Permutation acc acc' -> uniform_shape acc -> table_covers tbl acc ->
  combine_mrds acc' tbl = combine_mrds acc tbl.
Proof.
  intros Hp Hsh Hcov.
  destruct acc as [|ga acc0] eqn:Eacc.
  - apply Permutation_nil in Hp. now subst acc'.
  - rewrite <- Eacc in *.
    assert (Hne : acc <> []) by (rewrite Eacc; discriminate).
    assert (Hne' : acc' <> []).
    { intros ->. apply Permutation_sym, Permutation_nil in Hp. congruence. }
    assert (Hanchor : anchor_shape acc' = anchor_shape acc).
    { destruct acc' as [|[g' a'] rest]; [congruence|]. simpl.
      assert (Hin : In (g', a') acc)
        by (eapply Permutation_in; [apply Permutation_sym; exact Hp|now left]).
      unfold uniform_shape in Hsh. rewrite Forall_forall in Hsh.
      now destruct (Hsh _ Hin). }
    assert (Hsh' : uniform_shape acc').
    { unfold uniform_shape. rewrite Hanchor. now rewrite <- Hp. }
    assert (Hcov' : table_covers tbl acc').
    { unfold table_covers. now rewrite <- Hp. }
    rewrite (combine_mrds_uniform SRth Hne Hsh Hcov).
    rewrite (combine_mrds_uniform SRth Hne' Hsh' Hcov').
    f_equal. unfold weighted_sum. rewrite Hanchor.
    symmetry. apply sum_arrays_perm.
    + now apply Permutation_map.
    + apply Forall_map. eapply Forall_impl; [|exact Hsh].
      intros ga0 Hga. now apply has_shape_inner_sum.
Qed.

Lemma nth_zip_with (l l' : list R) (r : nat) :
  r < length l -> r < length l' ->
  nth r (zip_with radd l l') rO = radd (nth r l rO) (nth r l' rO).
Proof.
  revert l l'; induction r as [|r IH]; intros [|x l] [|y l'] H1 H2;
    simpl in *; try lia; auto.
  apply IH; lia.
Qed.

Lemma scalar_mul_add (w w' : R) (a : ndarray R) :
  scalar_mul (radd w w') a = aadd (scalar_mul w a) (scalar_mul w' a).
Proof.
  unfold scalar_mul, aadd; simpl. f_equal.
  induction (data a) as [|x d IH]; simpl; auto.
  rewrite IH. f_equal. ring.
Qed.

Lemma sum_arrays_aadd {A : Type} (shp : list nat) (f g : A -> ndarray R)
      (l : list A) :
  sum_arrays shp (map (fun x => aadd (f x) (g x)) l) =
  aadd (sum_arrays shp (map f l)) (sum_arrays shp (map g l)).
Proof.
  induction l as [|x l IH]; simpl.
  - symmetry. apply (aadd_zeros_l SRth), has_shape_zeros.
  - rewrite IH. unfold aadd; simpl. f_equal. apply zip_add_interchange.
Qed.

(** X10. The result is additive in the weights: with the weights of two
    tables over the same rows added up realization by realization,
    [combine_mrds] returns the element by element sum of what it returns
    for each table (arrays of one shape, both tables covering them). *)
Theorem combine_mrds_additive (acc : dict (ndarray R)) (tbl tbl' : rlzs_by_g_t R) :
  acc <> [] -> uniform_shape acc ->
  table_covers tbl acc -> table_covers tbl' acc -> rlzs tbl' = rlzs tbl ->
  combine_mrds acc tbl = OK (weighted_sum acc tbl) /\
  combine_mrds acc tbl' = OK (weighted_sum acc tbl') /\
  combine_mrds acc (add_weights tbl tbl') =
  OK (aadd (weighted_sum acc tbl) (weighted_sum acc tbl')).
Proof.
  intros Hne Hsh Hcov Hcov' Hrows.
  split; [now apply (combine_mrds_uniform SRth)|].
  split; [now apply (combine_mrds_uniform SRth)|].
  assert (Hrl : forall g, rlzs_of tbl' g = rlzs_of tbl g)
    by (intros g; unfold rlzs_of; now rewrite Hrows).
  assert (Hrl2 : forall g, rlzs_of (add_weights tbl tbl') g = rlzs_of tbl g)
    by reflexivity.
  assert (Hboth : Forall (fun ga =>
            Forall (fun r => r < length (weight tbl) /\ r < length (weight tbl'))
              (rlzs_of tbl (fst ga))) acc).
  { unfold table_covers in *. rewrite Forall_forall in *. intros ga Hin.
    destruct (Hcov _ Hin) as [_ H1]. destruct (Hcov' _ Hin) as [_ H2].
    rewrite Hrl in H2. rewrite Forall_forall in *. intros r Hr.
    split; [now apply H1 | now apply H2]. }
  rewrite (combine_mrds_uniform SRth Hne Hsh).
  - f_equal. unfold weighted_sum.
    rewrite <- sum_arrays_aadd. f_equal.
    apply map_ext_in. intros ga Hin. rewrite Hrl, Hrl2.
    rewrite <- sum_arrays_aadd. f_equal.
    apply map_ext_in. intros r Hr.
    rewrite Forall_forall in Hboth. pose proof (Hboth _ Hin) as Hga.
    rewrite Forall_forall in Hga. destruct (Hga _ Hr) as [H1 H2].
    rewrite <- scalar_mul_add. f_equal.
    unfold weight_of, add_weights; simpl. now apply nth_zip_with.
  - unfold table_covers in *. rewrite Forall_forall in *. intros ga Hin.
    destruct (Hcov _ Hin) as [Hrow _]. split; [exact Hrow|].
    rewrite Hrl2. pose proof (Hboth _ Hin) as Hga.
    rewrite Forall_forall in *. intros r Hr. destruct (Hga _ Hr).
    unfold add_weights; simpl. rewrite zip_with_length. lia.
Qed.

End CombinerAlgebra.

(** ** More on the dispatch *)

Lemma ceil_nat_le (n b : nat) : 0 < b -> ceil_nat n b <= n / b + 1.
Proof.
  intros Hb. unfold ceil_nat.
  rewrite <- (Nat.div_add n 1 b) by lia.
  apply Nat.Div0.div_le_mono. lia.
Qed.

Lemma ceil_nat_one (n b : nat) : 0 < n -> n <= b -> ceil_nat n b = 1.
Proof.
  intros Hn Hb. unfold ceil_nat.
  symmetry. apply (Nat.div_unique _ _ 1 (n - 1)); lia.
Qed.

Lemma list_sum_div (b : nat) (l : list nat) :
  0 < b -> list_sum (map (fun x => x / b) l) <= list_sum l / b.
Proof.
  intros Hb. induction l as [|a l IH]; simpl.
  - now rewrite Nat.Div0.div_0_l.
  - apply Nat.div_le_lower_bound; [lia|].
    pose proof (Nat.Div0.mul_div_le a b).
    pose proof (Nat.Div0.mul_div_le (list_sum l) b). nia.
Qed.

Section DispatchMore.

Variables R ctx_t : Type.

Lemma units_of_group_facts (cms : list ContextMaker) (n b grp : nat)
      (c : list ctx_t) :
  grp < length cms -> (b = 0 -> c = []) ->
  exists cm us,
    nth_error cms grp = Some cm /\
    units_of_group cms n (Z.of_nat b) (grp, c)
    = map (fun u => new_Input u cm n) us /\
    concat us = c /\
    Forall (fun u => length u <= b) us /\
    length us = ceil_nat (length c) b /\
    exists slcs, gen_slices 0 (length c) (Z.of_nat b) = OK slcs.
Proof.
  intros Hgrp Hb.
  destruct (@gen_slices_whole _ c b Hb) as [slcs [Hs [Hcat [Hlen Hcount]]]].
  exists (nth grp cms (mk_cmaker [])), (map (getslice c) slcs).
  split; [now apply nth_error_nth'|].
  unfold units_of_group. simpl.
  rewrite (nth_error_nth' cms (mk_cmaker []) Hgrp), Hs.
  split; [now rewrite map_map|].
  split; [exact Hcat|]. split; [now apply Forall_map|].
  split; [now rewrite length_map | now exists slcs].
Qed.

Lemma blocksize_of_nat (ds : dstore R ctx_t) :
  (1 <= concurrent_tasks ds)%Z ->
  exists b : nat,
    blocksize_of ds = Z.of_nat b /\
    ceil_div (Z.of_nat (num_contexts (ctx_by_grp ds))) (concurrent_tasks ds)
    = OK (blocksize_of ds) /\
    (concurrent_tasks ds * (Z.of_nat b - 1)
     < Z.of_nat (num_contexts (ctx_by_grp ds))
     <= concurrent_tasks ds * Z.of_nat b)%Z /\
    (b = 0 -> forall gc, In gc (ctx_by_grp ds) -> snd gc = []).
Proof.
  intros HT.
  destruct (@ceil_div_positive (num_contexts (ctx_by_grp ds)) _ HT)
    as [b [Hb Hbound]].
  assert (Hbs : blocksize_of ds = Z.of_nat b).
  { unfold ceil_div in Hb.
    destruct (concurrent_tasks ds =? 0)%Z; [discriminate|].
    now inversion Hb. }
  exists b. split; [exact Hbs|]. split; [now rewrite Hbs|].
  split; [exact Hbound|].
  intros Hb0 gc Hin. pose proof (@num_contexts_bound _ _ gc Hin) as Hle.
  subst b. destruct (snd gc); simpl in *; auto. lia.
Qed.

Lemma submit_groups_app (cms : list ContextMaker) (n : nat) (blocksize : Z)
      (l1 l2 : dict (list ctx_t)) (tr : list (event R ctx_t)) :
  submit_groups cms n blocksize (l1 ++ l2) tr =
  match submit_groups cms n blocksize l1 tr with
  | (tr', OK _) => submit_groups cms n blocksize l2 tr'
  | (tr', Raise e) => (tr', Raise e)
  end.
Proof.
  revert tr; induction l1 as [|[grp c] l1 IH]; intros tr; simpl; auto.
  unfold mbind, lift.
  destruct (getitem cms grp) as [cm|e]; auto.
  destruct (gen_slices 0 (length c) blocksize) as [slcs|e]; auto.
  rewrite submit_slices_trace. apply IH.
Qed.

(** On a dispatchable datastore the loop submits the units of the run and
    raises nothing. *)
Lemma submit_run (ds : dstore R ctx_t) (tr : list (event R ctx_t)) :
  dispatchable ds ->
  submit_groups (cmakers ds) (sitecol_len ds) (blocksize_of ds) (ctx_by_grp ds) tr
  = (tr ++ map Submit (units_of_run ds), OK tt).
Proof.
  intros [_ [_ [HT Hcms]]].
  destruct (blocksize_of_nat ds HT) as [b [Hbs [_ [_ Hempty]]]].
  apply submit_groups_trace, Forall_forall. intros [grp c] Hin.
  pose proof (proj1 (Forall_forall _ _) Hcms _ Hin) as Hgrp. simpl in *.
  split; [exact Hgrp|].
  destruct (@units_of_group_facts (cmakers ds) (sitecol_len ds) b grp c Hgrp)
    as [cm [us [_ [_ [_ [_ [_ Hs]]]]]]].
  - intros Hb0. exact (Hempty Hb0 _ Hin).
  - now rewrite Hbs.
Qed.

(** X14. A group without a binding stops the dispatch with IndexError;
    the units of the groups before it have been submitted by then, none
    of that group or of the later ones. *)
Theorem submit_groups_missing_binding (cms : list ContextMaker) (n : nat)
        (blocksize : Z) (pre post : dict (list ctx_t)) (grp : nat)
        (c : list ctx_t) (tr tr' : list (event R ctx_t)) :
  submit_groups cms n blocksize pre tr = (tr', OK tt) ->
  length cms <= grp ->
  submit_groups cms n blocksize (pre ++ (grp, c) :: post) tr
  = (tr', Raise IndexError).
Proof.
  intros Hpre Hgrp. rewrite submit_groups_app, Hpre. simpl.
  unfold mbind, lift, getitem.
  now rewrite (proj2 (nth_error_None _ _) Hgrp).
Qed.

Lemma units_of_run_groups (ds : dstore R ctx_t) :
  dispatchable ds ->
  exists b : nat,
    blocksize_of ds = Z.of_nat b /\
    (Z.of_nat (num_contexts (ctx_by_grp ds))
     <= concurrent_tasks ds * Z.of_nat b)%Z /\
    Forall (fun gc =>
              exists cm us,
                nth_error (cmakers ds) (fst gc) = Some cm /\
                units_of_group (cmakers ds) (sitecol_len ds) (blocksize_of ds) gc
                = map (fun u => new_Input u cm (sitecol_len ds)) us /\
                concat us = snd gc /\
                Forall (fun u => length u <= b) us /\
                length us = ceil_nat (length (snd gc)) b)
      (ctx_by_grp ds).
Proof.
  intros [_ [_ [HT Hcms]]].
  destruct (blocksize_of_nat ds HT) as [b [Hbs [_ [Hbound Hempty]]]].
  exists b. split; [exact Hbs|]. split; [lia|].
  apply Forall_forall. intros [grp c] Hin.
  pose proof (proj1 (Forall_forall _ _) Hcms _ Hin) as Hgrp. simpl in Hgrp.
  destruct (@units_of_group_facts (cmakers ds) (sitecol_len ds) b grp c Hgrp)
    as [cm [us [H1 [H2 [H3 [H4 [H5 _]]]]]]].
  - intros Hb0. exact (Hempty Hb0 _ Hin).
  - exists cm, us. rewrite Hbs. simpl. auto.
Qed.

(** X15. Every unit of a dispatchable run carries the number of sites of
    the run and has as weight the number of its records, and the weights
    of all the units add up to the number of records read. *)
Theorem units_weights (ds : dstore R ctx_t) :
  dispatchable ds ->
  Forall (fun inp => weight_ inp = length (ctx inp) /\ N inp = sitecol_len ds)
    (units_of_run ds) /\
  list_sum (map (@weight_ ctx_t) (units_of_run ds))
  = num_contexts (ctx_by_grp ds).
Proof.
  intros Hd. destruct (units_of_run_groups Hd) as [b [_ [_ Hgroups]]].
  unfold units_of_run, num_contexts.
  induction Hgroups as [|gc groups [cm [us [_ [Hu [Hcat _]]]]] _ [IH1 IH2]]; simpl.
  - split; [constructor | reflexivity].
  - split.
    + apply Forall_app. split; [|exact IH1].
      rewrite Hu. apply Forall_map, Forall_forall. intros u _. simpl. auto.
    + rewrite map_app, list_sum_app, IH2. f_equal.
      rewrite Hu, map_map. simpl. rewrite <- Hcat, length_concat.
      reflexivity.
Qed.

(** X16. A dispatchable run submits at most as many units as the target
    T plus the number of groups. *)
Theorem units_count_bound (ds : dstore R ctx_t) :
  dispatchable ds ->
  length (units_of_run ds)
  <= Z.to_nat (concurrent_tasks ds) + length (ctx_by_grp ds).
Proof.
  intros Hd. pose proof Hd as [_ [_ [HT _]]].
  destruct (units_of_run_groups Hd) as [b [_ [Hbound Hgroups]]].
  assert (Hlen : length (units_of_run ds)
                 = list_sum (map (fun gc => ceil_nat (length (snd gc)) b)
                               (ctx_by_grp ds))).
  { unfold units_of_run. clear Hbound.
    induction Hgroups as [|gc groups [cm [us [_ [Hu [_ [_ Hc]]]]]] _ IH]; simpl; auto.
    now rewrite length_app, IH, Hu, length_map, Hc. }
  rewrite Hlen. clear Hlen Hgroups.
  destruct (Nat.eq_dec b 0) as [->|Hb].
  - assert (H0 : forall l : dict (list ctx_t),
               list_sum (map (fun gc => ceil_nat (length (snd gc)) 0) l) = 0)
      by (induction l; simpl; auto).
    rewrite H0. lia.
  - assert (Hsum : forall l : dict (list ctx_t),
               list_sum (map (fun gc => ceil_nat (length (snd gc)) b) l)
               <= list_sum (map (fun x => x / b)
                              (map (fun gc => length (snd gc)) l))
                  + length l).
    { induction l as [|gc l IH]; simpl; auto.
      pose proof (@ceil_nat_le (length (snd gc)) b ltac:(lia)). lia. }
    specialize (Hsum (ctx_by_grp ds)).
    pose proof (@list_sum_div b (map (fun gc => length (snd gc)) (ctx_by_grp ds))
                  ltac:(lia)) as Hdiv.
    fold (num_contexts (ctx_by_grp ds)) in Hdiv.
    assert (Hq : num_contexts (ctx_by_grp ds) / b
                 <= Z.to_nat (concurrent_tasks ds)).
    { apply Nat.Div0.div_le_upper_bound. nia. }
    lia.
Qed.

(** X17. In a dispatchable run an empty group submits no unit, and a
    non-empty group no larger than the block size is submitted whole, as
    one unit; with a target of 1 this is every non-empty group. *)
Theorem small_group_one_unit (ds : dstore R ctx_t) (grp : nat) (c : list ctx_t) :
  dispatchable ds -> In (grp, c) (ctx_by_grp ds) ->
  let units := units_of_group (cmakers ds) (sitecol_len ds) (blocksize_of ds)
                 (grp, c) in
  (c = [] -> units = []) /\
  (c <> [] ->
   (Z.of_nat (length c) <= blocksize_of ds)%Z \/ concurrent_tasks ds = 1%Z ->
   exists cm, nth_error (cmakers ds) grp = Some cm /\
              units = [new_Input c cm (sitecol_len ds)]).
Proof.
  intros Hd Hin units. subst units.
  destruct (units_of_run_groups Hd) as [b [Hbs [Hbound Hgroups]]].
  rewrite Forall_forall in Hgroups.
  destruct (Hgroups _ Hin) as [cm [us [Hcm [Hu [Hcat [_ Hcount]]]]]].
  simpl in *. rewrite Hu. split.
  - intros ->. simpl in Hcount. unfold ceil_nat in Hcount. simpl in Hcount.
    assert (Hz : (b - 1) / b = 0)
      by (destruct b; [reflexivity | apply Nat.div_small; lia]).
    rewrite Hz in Hcount. destruct us; [reflexivity | discriminate].
  - intros Hne Hsmall.
    assert (Hlen : 0 < length c) by (destruct c; [congruence | simpl; lia]).
    assert (Hle : length c <= b).
    { destruct Hsmall as [H|H]; [rewrite Hbs in H; lia|].
      pose proof (@num_contexts_bound _ _ (grp, c) Hin) as Hn. simpl in Hn.
      rewrite H in Hbound. lia. }
    rewrite (ceil_nat_one Hlen Hle) in Hcount.
    destruct us as [|u [|u' us']]; try discriminate.
    simpl in Hcat. rewrite app_nil_r in Hcat. subst u.
    exists cm. split; [exact Hcm | reflexivity].
Qed.

End DispatchMore.

(** ** More on the orchestration *)

Section MainMore.

Variable R : Type.
Context {scalar : Scalar R}.
Variables ctx_t crosscorr_t imt_t bins_t cc_name_t : Type.
Variable calc_mean_rate_dist :
  list ctx_t -> nat -> ContextMaker -> crosscorr_t ->
  imt_t -> imt_t -> bins_t -> bins_t -> array4 R.
Variable new_crosscorr : cc_name_t -> result crosscorr_t.
Variable starmap_reduce :
  (Input ctx_t -> result (dict (ndarray R))) -> list (Input ctx_t) ->
  result (dict (ndarray R)).

Lemma submitted_units (l : list (Input ctx_t)) :
  submitted (map (@Submit R ctx_t) l) = l.
Proof.
  unfold submitted. induction l as [|u l IH]; simpl; auto. now rewrite IH.
Qed.

Lemma submitted_dispatched (ds : dstore R ctx_t) (tr : list (event R ctx_t)) :
  submitted (skipn (length tr) (tr ++ dispatched ds)) = units_of_run ds.
Proof.
  rewrite skipn_app, skipn_all, Nat.sub_diag. simpl.
  unfold dispatched, submitted. rewrite !flat_map_app. simpl.
  fold (submitted (map (@Submit R ctx_t) (units_of_run ds))).
  rewrite submitted_units.
  unfold level_warning. destruct (24 <? num_bins ds)%Z; reflexivity.
Qed.

(** What [main] does once the cross correlation model is found, on a
    dispatchable datastore: it ends according to the reduction and to the
    combiner. *)
Lemma main_from_dispatch (ds : dstore R ctx_t) (imt1 imt2 : imt_t)
      (name : cc_name_t) (meabins sigbins : bins_t)
      (tr : list (event R ctx_t)) (cc : crosscorr_t) :
  new_crosscorr name = OK cc -> dispatchable ds ->
  main calc_mean_rate_dist new_crosscorr starmap_reduce
    ds imt1 imt2 name meabins sigbins tr =
  match starmap_reduce
          (fun inp => compute_mrd calc_mean_rate_dist inp cc imt1 imt2
                        meabins sigbins)
          (units_of_run ds) with
  | Raise e => (tr ++ dispatched ds, Raise e)
  | OK acc =>
      let created :=
        CreateDset (num_bins ds, num_bins ds, sitecol_len ds) in
      match combine_mrds acc (rlzs_by_g ds) with
      | Raise e => (tr ++ dispatched ds ++ [created], Raise e)
      | OK out => (tr ++ dispatched ds ++ [created; WriteDset out], OK tt)
      end
  end.
Proof.
  intros Hcc Hd. pose proof Hd as [Hlen [HN [HT _]]].
  destruct (blocksize_of_nat ds HT) as [b [_ [Hceil _]]].
  assert (Hleb : (sitecol_len ds <=? 10) = true) by (apply Nat.leb_le; lia).
  pose proof (submitted_dispatched ds tr) as Hsub.
  unfold main, mbind, lift, floor_div. rewrite Hcc.
  destruct (Z.of_nat (imtls_len ds) =? 0)%Z eqn:H0; [apply Z.eqb_eq in H0; lia|].
  rewrite Hleb.
  fold (num_bins ds).
  assert (Hwarn : (if (24 <? num_bins ds)%Z
                   then emit (LogWarning (num_bins ds + 1))
                   else ret tt) tr = (tr ++ level_warning ds, OK tt)).
  { unfold level_warning. destruct (24 <? num_bins ds)%Z; unfold emit, ret; auto.
    now rewrite app_nil_r. }
  rewrite Hwarn. unfold emit at 1 2. rewrite Hceil, (submit_run _ Hd).
  replace ((((tr ++ level_warning ds)
            ++ [LogInfo (num_contexts (ctx_by_grp ds))]) ++ [SwmrOn])
            ++ map Submit (units_of_run ds))
    with (tr ++ dispatched ds)
    by (unfold dispatched; now rewrite <- !app_assoc).
  rewrite Hsub.
  destruct (starmap_reduce _ (units_of_run ds)) as [acc|e]; auto.
  unfold emit.
  destruct (combine_mrds acc (rlzs_by_g ds)) as [out|e]; simpl;
    now rewrite <- !app_assoc.
Qed.

(** X12. A complete run.  On a dispatchable datastore, when the cross
    correlation model is found, the reduction returns a dictionary and the
    combiner an array, [main] logs, switches the datastore to SWMR,
    submits the units of the run, creates the dataset of shape
    (L1, L1, N) and writes the combined array into it, in that order and
    nothing else. *)
Theorem main_complete_run (ds : dstore R ctx_t) (imt1 imt2 : imt_t)
        (name : cc_name_t) (meabins sigbins : bins_t)
        (tr : list (event R ctx_t)) (cc : crosscorr_t)
        (acc : dict (ndarray R)) (out : ndarray R) :
  new_crosscorr name = OK cc -> dispatchable ds ->
  starmap_reduce
    (fun inp => compute_mrd calc_mean_rate_dist inp cc imt1 imt2 meabins sigbins)
    (units_of_run ds) = OK acc ->
  combine_mrds acc (rlzs_by_g ds) = OK out ->
  main calc_mean_rate_dist new_crosscorr starmap_reduce
    ds imt1 imt2 name meabins sigbins tr =
  (tr ++ dispatched ds
      ++ [CreateDset (num_bins ds, num_bins ds, sitecol_len ds); WriteDset out],
   OK tt).
Proof.
  intros Hcc Hd Hred Hcomb.
  rewrite (@main_from_dispatch ds imt1 imt2 name meabins sigbins tr cc Hcc Hd).
  now rewrite Hred, Hcomb.
Qed.

(** X13. Failures after the dispatch.  When the reduction raises, [main]
    raises the same exception and no dataset is created.  When the
    combiner raises, [main] raises the same exception after the dataset
    has been created: the dataset exists and is never written. *)
Theorem main_late_failures (ds : dstore R ctx_t) (imt1 imt2 : imt_t)
        (name : cc_name_t) (meabins sigbins : bins_t)
        (tr : list (event R ctx_t)) (cc : crosscorr_t) (e : exn) :
  new_crosscorr name = OK cc -> dispatchable ds ->
  let reduced :=
    starmap_reduce
      (fun inp => compute_mrd calc_mean_rate_dist inp cc imt1 imt2
                    meabins sigbins)
      (units_of_run ds) in
  (reduced = Raise e ->
   main calc_mean_rate_dist new_crosscorr starmap_reduce
     ds imt1 imt2 name meabins sigbins tr = (tr ++ dispatched ds, Raise e)) /\
  (forall acc, reduced = OK acc ->
     combine_mrds acc (rlzs_by_g ds) = Raise e ->
     main calc_mean_rate_dist new_crosscorr starmap_reduce
       ds imt1 imt2 name meabins sigbins tr =
     (tr ++ dispatched ds
         ++ [CreateDset (num_bins ds, num_bins ds, sitecol_len ds)],
      Raise e)).
Proof.
  intros Hcc Hd reduced. subst reduced. split.
  - intros Hred.
    rewrite (@main_from_dispatch ds imt1 imt2 name meabins sigbins tr cc Hcc Hd).
    now rewrite Hred.
  - intros acc Hred Hcomb.
    rewrite (@main_from_dispatch ds imt1 imt2 name meabins sigbins tr cc Hcc Hd).
    now rewrite Hred, Hcomb.
Qed.

End MainMore.

(** ** More worked examples on integers *)

Module MoreExamples.

Import Scenario.

Lemma compute_mrd_exact_witness :
  let inp := new_Input [3; 4; 5] (mk_cmaker [0; 1]) 1 in
  compute_mrd stub_kernel inp tt tt tt tt tt =
  OK (combine [0; 1]
        (map (layer (stub_kernel [3; 4; 5] 1 (mk_cmaker [0; 1]) tt tt tt tt tt))
           (seq 0 2))).
Proof.
  intros inp.
  apply (@compute_mrd_exact Z nat unit unit unit stub_kernel inp tt tt tt tt tt).
  - repeat constructor; simpl; intuition discriminate.
  - unfold num_layers, layer_shape; simpl; lia.
Defined.

Lemma compute_mrd_too_few_layers_witness :
  compute_mrd stub_kernel (new_Input [3; 4; 5] (mk_cmaker [0; 1; 2]) 1)
    tt tt tt tt tt = Raise IndexError.
Proof.
  apply (@compute_mrd_too_few_layers Z nat unit unit unit stub_kernel
           (new_Input [3; 4; 5] (mk_cmaker [0; 1; 2]) 1) tt tt tt tt tt).
  unfold num_layers; simpl; lia.
Defined.

Lemma compute_mrd_result_uniform_witness :
  let inp := new_Input [3; 4; 5] (mk_cmaker [0; 1; 0]) 1 in
  let d := [(0, full [2; 2; 1] 1%Z); (1, full [2; 2; 1] 2%Z)] in
  compute_mrd (fun c n cm _ _ _ _ _ =>
                 mk_array4 (2, 2, n, 3)
                   (flat_map (fun _ => [3; 2; 1]%Z) (seq 0 (2 * 2 * n))))
    inp tt tt tt tt tt = OK d /\
  NoDup (keys d).
Proof.
  intros inp d. split; [reflexivity|].
  apply (proj1 (@compute_mrd_result_uniform Z nat unit unit unit
                  (fun c n cm _ _ _ _ _ =>
                     mk_array4 (2, 2, n, 3)
                       (flat_map (fun _ => [3; 2; 1]%Z) (seq 0 (2 * 2 * n))))
                  _ inp tt tt tt tt tt d eq_refl)).
Defined.

Lemma layer_elements_witness :
  let mrd := mk_array4 (1, 2, 2, 3)
               [10; 11; 12; 20; 21; 22; 30; 31; 32; 40; 41; 42]%Z in
  slice_g mrd 1 = OK (layer mrd 1) /\
  nth_error (data (layer mrd 1)) 2 = nth_error (data4 mrd) (2 * num_layers mrd + 1).
Proof.
  intros mrd. apply (@layer_elements Z mrd 1 2).
  - reflexivity.
  - unfold num_layers, layer_shape; simpl; lia.
  - unfold num_layers, layer_shape; simpl; lia.
Defined.

Lemma combine_mrds_output_well_formed_witness :
  let acc := [(0, full [2; 2; 1] 1%Z); (1, full [1; 1; 1] 5%Z)] in
  let tbl := mk_rlzs_by_g [[0]; [1]] [6; 4]%Z in
  exists out, combine_mrds acc tbl = OK out /\ has_shape (anchor_shape acc) out.
Proof.
  intros acc tbl.
  apply (proj2 (@combine_mrds_output_well_formed Z _ acc tbl
                  ltac:(repeat constructor))).
  - discriminate.
  - unfold table_covers; check_data.
  - reflexivity.
Defined.

Lemma combine_mrds_exceptions_witness :
  let acc := [(0, full [2; 2; 1] 1%Z); (1, full [3; 1; 1] 5%Z)] in
  let tbl := mk_rlzs_by_g [[0]; [1]] [6; 4]%Z in
  (ValueError = StopIteration /\ acc = []) \/
  (ValueError = IndexError /\ acc <> [] /\ ~ table_covers tbl acc) \/
  (ValueError = ValueError /\ acc <> [] /\
   forallb (accepted tbl (anchor_shape acc)) acc = false).
Proof.
  intros acc tbl.
  apply (@combine_mrds_exceptions Z _ acc tbl ValueError). reflexivity.
Defined.

Lemma combine_mrds_missing_row_witness :
  combine_mrds [(0, full [2; 2; 1] 1%Z); (2, full [2; 2; 1] 5%Z)]
    (mk_rlzs_by_g [[0]; [1]] [6; 4]%Z) = Raise IndexError.
Proof.
  apply (@combine_mrds_missing_row Z _ [(0, full [2; 2; 1] 1%Z)] [] 2
           (full [2; 2; 1] 5%Z) (mk_rlzs_by_g [[0]; [1]] [6; 4]%Z)).
  - unfold table_covers; check_data.
  - reflexivity.
  - unfold num_layers, layer_shape; simpl; lia.
Defined.

Lemma combine_mrds_no_realization_witness :
  let tbl := mk_rlzs_by_g [[0]; []; [1]] [6; 4]%Z in
  combine_mrds [(0, full [2; 2; 1] 1%Z); (1, full [7; 7] 9%Z);
                (2, full [2; 2; 1] 2%Z)] tbl
  = combine_mrds [(0, full [2; 2; 1] 1%Z); (2, full [2; 2; 1] 2%Z)] tbl.
Proof.
  intros tbl.
  apply (@combine_mrds_no_realization Z _ [(0, full [2; 2; 1] 1%Z)]
           [(2, full [2; 2; 1] 2%Z)] 1 (full [7; 7] 9%Z) tbl).
  - discriminate.
  - reflexivity.
Defined.

Lemma combine_mrds_order_witness :
  let tbl := mk_rlzs_by_g [[0]; [1]] [6; 4]%Z in
  combine_mrds [(1, full [2; 2; 1] 2%Z); (0, full [2; 2; 1] 1%Z)] tbl
  = combine_mrds [(0, full [2; 2; 1] 1%Z); (1, full [2; 2; 1] 2%Z)] tbl.
Proof.
  intros tbl. apply (combine_mrds_order Z_semi_ring).
  - apply perm_swap.
  - unfold uniform_shape; check_data.
  - unfold table_covers; check_data.
Defined.

Lemma combine_mrds_additive_witness :
  let acc := [(0, full [2; 2; 1] 1%Z); (1, full [2; 2; 1] 2%Z)] in
  let tbl := mk_rlzs_by_g [[0]; [1]] [6; 4]%Z in
  let tbl' := mk_rlzs_by_g [[0]; [1]] [1; 2]%Z in
  combine_mrds acc (add_weights tbl tbl') =
  OK (aadd (weighted_sum acc tbl) (weighted_sum acc tbl')).
Proof.
  intros acc tbl tbl'.
  apply (@combine_mrds_additive Z _ Z_semi_ring acc tbl tbl').
  - discriminate.
  - unfold uniform_shape; check_data.
  - unfold table_covers; check_data.
  - unfold table_covers; check_data.
  - reflexivity.
Defined.

Ltac check_dispatchable :=
  unfold dispatchable; simpl;
  repeat first
    [ discriminate | lia | apply Forall_nil | apply Forall_cons | split
    | progress simpl ].

Lemma main_complete_run_witness :
  let ds := store 1 4 twelve in
  run ds =
  ([] ++ dispatched ds
      ++ [CreateDset (num_bins ds, num_bins ds, sitecol_len ds);
          WriteDset (full [2; 2; 1] 56%Z)],
   OK tt).
Proof.
  intros ds.
  apply (@main_complete_run Z _ nat unit unit unit unit stub_kernel
           (fun _ => OK tt) stub_reduce ds tt tt tt tt tt [] tt
           [(0, full [2; 2; 1] 4%Z); (1, full [2; 2; 1] 8%Z)]
           (full [2; 2; 1] 56%Z)).
  - reflexivity.
  - check_dispatchable.
  - reflexivity.
  - reflexivity.
Defined.

Lemma main_late_failures_witness :
  let ds := store 1 4 [] in
  run ds =
  ([] ++ dispatched ds
      ++ [CreateDset (num_bins ds, num_bins ds, sitecol_len ds)],
   Raise StopIteration).
Proof.
  intros ds.
  apply (proj2 (@main_late_failures Z _ nat unit unit unit unit stub_kernel
                  (fun _ => OK tt) stub_reduce ds tt tt tt tt tt [] tt
                  StopIteration eq_refl ltac:(check_dispatchable)) []).
  - reflexivity.
  - reflexivity.
Defined.

Lemma submit_groups_missing_binding_witness :
  exists tr',
    submit_groups [mk_cmaker [0; 1]] 1 3 [(0, seq 0 4)] (@nil (event Z nat))
    = (tr', OK tt) /\
    length tr' = 2 /\
    submit_groups [mk_cmaker [0; 1]] 1 3 ([(0, seq 0 4)] ++ (1, seq 4 8) :: [])
      (@nil (event Z nat)) = (tr', Raise IndexError).
Proof.
  eexists. split; [reflexivity|]. split; [reflexivity|].
  apply (@submit_groups_missing_binding Z nat [mk_cmaker [0; 1]] 1 3%Z
           [(0, seq 0 4)] [] 1 (seq 4 8) []).
  - reflexivity.
  - simpl. lia.
Defined.

Lemma units_weights_witness :
  let ds := store 1 4 four_and_eight in
  Forall (fun inp => weight_ inp = length (ctx inp) /\ N inp = sitecol_len ds)
    (units_of_run ds) /\
  list_sum (map (@weight_ nat) (units_of_run ds)) = num_contexts (ctx_by_grp ds).
Proof.
  intros ds. apply (@units_weights Z nat ds). check_dispatchable.
Defined.

Lemma units_count_bound_witness :
  let ds := store 1 4 four_and_eight in
  length (units_of_run ds)
  <= Z.to_nat (concurrent_tasks ds) + length (ctx_by_grp ds).
Proof.
  intros ds. apply (@units_count_bound Z nat ds). check_dispatchable.
Defined.

Lemma small_group_one_unit_witness :
  let ds := store 1 1 four_and_eight in
  let units := units_of_group (cmakers ds) (sitecol_len ds) (blocksize_of ds)
                 (0, seq 0 4) in
  (seq 0 4 = [] -> units = []) /\
  (seq 0 4 <> [] ->
   (Z.of_nat (length (seq 0 4)) <= blocksize_of ds)%Z
   \/ concurrent_tasks ds = 1%Z ->
   exists cm, nth_error (cmakers ds) 0 = Some cm /\
              units = [new_Input (seq 0 4) cm (sitecol_len ds)]).
Proof.
  intros ds. apply (@small_group_one_unit Z nat ds 0 (seq 0 4)).
  - check_dispatchable.
  - simpl. left. reflexivity.
Defined.

End MoreExamples.

(** * The combiner in any arithmetic *)

Lemma list_from_elements {A : Type} (dflt : A) (f : nat -> A) (d : list A) (n : nat) :
  length d = n -> (forall k, k < n -> nth k d dflt = f k) ->
  d = map f (seq 0 n).
Proof.
  intros Hlen Hnth.
  apply (nth_ext d (map f (seq 0 n)) dflt (f 0)).
  - now rewrite length_map, length_seq.
  - intros k Hk. rewrite Hlen in Hk.
    rewrite map_nth, seq_nth by exact Hk. now apply Hnth.
Qed.

Lemma getitem_set_nth_other {A : Type} (l : list A) (i j : nat) (x : A) :
  i <> j -> getitem (set_nth i x l) j = getitem l j.
Proof.
  unfold getitem. revert i j; induction l as [|a l IH]; intros [|i] [|j] Hij;
    simpl; auto; try congruence; try (apply IH; congruence).
Qed.

Section CombinerLoop.

Context {R : Type} {scalar : Scalar R}.

Lemma nth_zip_add (l l' : list R) (k : nat) :
  k < length l -> k < length l' ->
  nth k (zip_with radd l l') rO = radd (nth k l rO) (nth k l' rO).
Proof.
  revert l l'; induction k as [|k IH]; intros [|x l] [|y l'] H1 H2;
    simpl in *; try lia; auto.
  apply IH; lia.
Qed.

Lemma nth_scalar_mul (w : R) (a : ndarray R) (k : nat) :
  k < length (data a) ->
  nth k (data (scalar_mul w a)) rO = rmul w (nth k (data a) rO).
Proof.
  intros Hk. simpl.
  rewrite (nth_indep _ rO (rmul w rO)) by (now rewrite length_map).
  apply map_nth.
Qed.

(** The inner loop is a left fold of array sums. *)
Lemma for_rlzs_fold (shp : list nat) (weig : list R) (value : ndarray R)
      (rs : list nat) :
  has_shape shp value -> Forall (fun r => r < length weig) rs ->
  forall out, has_shape shp out ->
    for_rlzs weig value rs out =
    OK (fold_left aadd (map (fun r => scalar_mul (nth r weig rO) value) rs) out).
Proof.
  intros Hv Hrs. induction Hrs as [|r rs Hr _ IH]; intros out Ho; simpl; auto.
  unfold add_weighted. rewrite (getitem_nth _ rO Hr). simpl.
  rewrite (@iadd_same_shape R scalar shp) by
      (try apply has_shape_scalar_mul; auto; apply Ho).
  simpl. apply IH. apply has_shape_aadd; auto.
  now apply has_shape_scalar_mul.
Qed.

Lemma has_shape_fold_aadd (shp : list nat) (ts : list (ndarray R)) :
  Forall (has_shape shp) ts ->
  forall out, has_shape shp out -> has_shape shp (fold_left aadd ts out).
Proof.
  induction 1 as [|t ts Ht _ IH]; intros out Ho; simpl; auto.
  apply IH. now apply has_shape_aadd.
Qed.

(** The outer loop is a left fold over the terms of all the entries. *)
Lemma for_g_fold (shp : list nat) (tbl : rlzs_by_g_t R) (acc : dict (ndarray R)) :
  Forall (fun ga => has_shape shp (snd ga)) acc -> table_covers tbl acc ->
  forall out, has_shape shp out ->
    for_g (rlzs tbl) (weight tbl) acc out =
    OK (fold_left aadd
          (flat_map (fun ga =>
                       map (fun r => scalar_mul (weight_of tbl r) (snd ga))
                         (rlzs_of tbl (fst ga)))
             acc)
          out).
Proof.
  intros Hacc Hcov.
  induction Hacc as [|[g value] acc Hv _ IH]; intros out Ho; simpl; auto.
  inversion Hcov as [|? ? [Hg Hrs] Hcov']; subst; simpl in *.
  rewrite (getitem_nth _ [] Hg). simpl. fold (rlzs_of tbl g).
  rewrite (@for_rlzs_fold shp (weight tbl) value (rlzs_of tbl g) Hv Hrs out Ho).
  simpl. rewrite fold_left_app. apply IH; auto.
  apply has_shape_fold_aadd; auto.
  apply Forall_map, Forall_forall. intros r _. now apply has_shape_scalar_mul.
Qed.

(** Element by element, a left fold of array sums is the left fold of
    the sums of the elements. *)
Lemma fold_aadd_elements (shp : list nat) (ts : list (ndarray R)) (k : nat) :
  k < size_of shp -> Forall (has_shape shp) ts ->
  forall out, has_shape shp out ->
    nth k (data (fold_left aadd ts out)) rO =
    fold_left radd (map (fun t => nth k (data t) rO) ts) (nth k (data out) rO).
Proof.
  intros Hk. induction 1 as [|t ts Ht _ IH]; intros out Ho; simpl; auto.
  rewrite IH by (now apply has_shape_aadd). f_equal.
  destruct Ht as [_ Ht]. destruct Ho as [_ Ho].
  simpl. apply nth_zip_add; lia.
Qed.

Lemma terms_at_of_arrays (shp : list nat) (tbl : rlzs_by_g_t R)
      (acc : dict (ndarray R)) (k : nat) :
  k < size_of shp -> Forall (fun ga => has_shape shp (snd ga)) acc ->
  map (fun t => nth k (data t) rO)
    (flat_map (fun ga =>
                 map (fun r => scalar_mul (weight_of tbl r) (snd ga))
                   (rlzs_of tbl (fst ga)))
       acc)
  = terms_at acc tbl k.
Proof.
  intros Hk. unfold terms_at.
  induction 1 as [|[g a] acc [_ Ha] _ IH]; simpl; auto.
  rewrite map_app, IH, map_map. f_equal.
  apply map_ext. intros r. simpl in Ha. apply nth_scalar_mul. lia.
Qed.

(** On arrays of one shape and a table that covers them, [combine_mrds]
    returns the array of the accumulated terms, in any arithmetic. *)
Lemma combine_mrds_accumulates (acc : dict (ndarray R)) (tbl : rlzs_by_g_t R) :
  acc <> [] -> uniform_shape acc -> table_covers tbl acc ->
  combine_mrds acc tbl = OK (accumulated acc tbl).
Proof.
  intros Hne Hsh Hcov. unfold uniform_shape in Hsh.
  assert (Hrun : combine_mrds acc tbl
                 = for_g (rlzs tbl) (weight tbl) acc (zeros (anchor_shape acc)))
    by (destruct acc as [|[g a] acc']; [congruence | reflexivity]).
  rewrite Hrun, (for_g_fold Hsh Hcov (has_shape_zeros _)).
  f_equal. unfold accumulated.
  match goal with
  | |- fold_left aadd ?ts ?z = _ =>
      assert (Hts : Forall (has_shape (anchor_shape acc)) ts);
      [|pose proof (has_shape_fold_aadd Hts (has_shape_zeros (anchor_shape acc)))
          as [Hs Hl];
        destruct (fold_left aadd ts z) as [s d] eqn:Efold]
  end.
  - apply Forall_flat_map. eapply Forall_impl; [|exact Hsh].
    intros ga Hga. apply Forall_map, Forall_forall. intros r _.
    now apply has_shape_scalar_mul.
  - simpl in Hs, Hl. subst s. f_equal.
    apply (list_from_elements rO); [exact Hl|].
    intros k Hk.
    change d with (data (mk_ndarray (anchor_shape acc) d)). rewrite <- Efold.
    rewrite (fold_aadd_elements Hk Hts (has_shape_zeros _)).
    rewrite (terms_at_of_arrays tbl Hk Hsh). unfold accumulate. f_equal.
    simpl. apply nth_repeat.
Qed.


Lemma for_g_other_row (rlzs_ : list (list nat)) (weig : list R) (g : nat)
      (rs : list nat) (acc : dict (ndarray R)) :
  ~ In g (keys acc) ->
  forall out, for_g (set_nth g rs rlzs_) weig acc out = for_g rlzs_ weig acc out.
Proof.
  induction acc as [|[g' a] acc IH]; intros Hg out; simpl in *; auto.
  rewrite getitem_set_nth_other by (intros ->; tauto).
  destruct (getitem rlzs_ g') as [rs'|e]; simpl; auto.
  destruct (for_rlzs weig a rs' out) as [out'|e]; simpl; auto;
    try (apply IH; tauto).
Qed.

(** C4, as the code has it.  [combine_mrds] only walks the sub-model
    indices present in the collection and never reads the row of an
    index that is absent from it: whatever the table says of an absent
    index [g] (realizations or none), the outcome, array or exception, is
    the same, so a declared index that is missing cannot be noticed.  On
    the entries that are present (non-empty, of one shape, covered by the
    table) it raises nothing and returns their accumulated terms. *)
Theorem combine_mrds_ignores_absent_index (acc : dict (ndarray R))
        (tbl : rlzs_by_g_t R) (g : nat) :
  ~ In g (keys acc) ->
  (forall rs, combine_mrds acc (with_row g rs tbl) = combine_mrds acc tbl) /\
  (acc <> [] -> uniform_shape acc -> table_covers tbl acc ->
   combine_mrds acc tbl = OK (accumulated acc tbl)).
Proof.
  intros Hg. split.
  - intros rs. destruct acc as [|[g0 a0] acc']; [reflexivity|].
    unfold combine_mrds, with_row. cbn [rlzs weight].
    now apply for_g_other_row.
  - apply combine_mrds_accumulates.
Qed.




End CombinerLoop.

(** ** One unit, computed and combined *)

Section PipelineFacts.

Context {R : Type} {scalar : Scalar R}.
Variables ctx_t crosscorr_t imt_t bins_t : Type.
Variable calc_mean_rate_dist :
  list ctx_t -> nat -> ContextMaker -> crosscorr_t ->
  imt_t -> imt_t -> bins_t -> bins_t -> array4 R.

(** X11. The partial result of one unit can be combined as it is: when
    the binding lists at least one sub-model index, the kernel returns a
    well-formed matrix with a layer for each of them and the table has a
    row for every index of the binding and a weight for every realization
    listed, [compute_mrd] returns a dictionary on which [combine_mrds]
    returns the accumulated terms, an array of the shape (L1, L1, N) of
    the layers.  Nothing is assumed of the arithmetic. *)
Theorem compute_then_combine (inp : Input ctx_t) (crosscorr : crosscorr_t)
        (imt1 imt2 : imt_t) (meabins sigbins : bins_t) (tbl : rlzs_by_g_t R) :
  let mrd := calc_mean_rate_dist (ctx inp) (N inp) (cmaker inp) crosscorr
               imt1 imt2 meabins sigbins in
  gidx (cmaker inp) <> [] ->
  length (gidx (cmaker inp)) <= num_layers mrd ->
  wf_array4 mrd ->
  Forall (fun g => g < length (rlzs tbl) /\
                   Forall (fun r => r < length (weight tbl)) (rlzs_of tbl g))
    (gidx (cmaker inp)) ->
  exists d,
    compute_mrd calc_mean_rate_dist inp crosscorr imt1 imt2 meabins sigbins
    = OK d /\
    combine_mrds d tbl = OK (accumulated d tbl) /\
    has_shape (layer_shape mrd) (accumulated d tbl).
Proof.
  intros mrd Hne HG Hwf Htbl.
  destruct (@by_gidx_keys R mrd (gidx (cmaker inp)) 0 []) as [d [Hrun Hkeys]];
    [exact HG|].
  assert (Hcomp : compute_mrd calc_mean_rate_dist inp crosscorr imt1 imt2
                    meabins sigbins = OK d) by exact Hrun.
  exists d. split; [exact Hcomp|].
  pose proof (@compute_mrd_shapes R ctx_t crosscorr_t imt_t bins_t
                calc_mean_rate_dist scalar inp crosscorr imt1 imt2
                meabins sigbins d Hcomp Hwf) as Hshapes.
  fold mrd in Hshapes.
  assert (Hd : d <> []).
  { destruct (gidx (cmaker inp)) as [|g gs] eqn:Eg; [congruence|].
    intros ->. destruct (Hkeys g) as [_ Hin]. apply Hin. left. now left. }
  assert (Hanchor : anchor_shape d = layer_shape mrd).
  { destruct d as [|[g a] d']; [congruence|]. simpl.
    inversion Hshapes as [|? ? [Ha _] _]; subst. exact Ha. }
  assert (Hsum : combine_mrds d tbl = OK (accumulated d tbl)).
  { apply (combine_mrds_accumulates Hd).
    - unfold uniform_shape. now rewrite Hanchor.
    - unfold table_covers. apply Forall_forall. intros [g a] Hin. simpl.
      assert (Hg : In g (gidx (cmaker inp))).
      { destruct (Hkeys g) as [Hk _]. destruct Hk as [H|[]]; auto.
        unfold keys. apply in_map_iff. now exists (g, a). }
      exact (proj1 (Forall_forall _ _) Htbl g Hg). }
  split; [exact Hsum|].
  rewrite <- Hanchor. apply (@combine_mrds_has_shape R scalar d tbl); [|exact Hsum].
  eapply Forall_impl; [|exact Hshapes].
  intros ga [H1 H2]. unfold wf_array. now rewrite H1.
Qed.

End PipelineFacts.

(** * The partition as [main] makes it *)

Section MainPartition.

Variable R : Type.
Context {scalar : Scalar R}.
Variables ctx_t crosscorr_t imt_t bins_t cc_name_t : Type.
Variable calc_mean_rate_dist :
  list ctx_t -> nat -> ContextMaker -> crosscorr_t ->
  imt_t -> imt_t -> bins_t -> bins_t -> array4 R.
Variable new_crosscorr : cc_name_t -> result crosscorr_t.
Variable starmap_reduce :
  (Input ctx_t -> result (dict (ndarray R))) -> list (Input ctx_t) ->
  result (dict (ndarray R)).

Lemma submitted_app (tr1 tr2 : list (event R ctx_t)) :
  submitted (tr1 ++ tr2) = submitted tr1 ++ submitted tr2.
Proof. unfold submitted. now rewrite flat_map_app. Qed.

Lemma skipn_own_length {A : Type} (l1 l2 : list A) :
  skipn (length l1) (l1 ++ l2) = l2.
Proof. now rewrite skipn_app, skipn_all, Nat.sub_diag. Qed.

Lemma submitted_level_warning (ds : dstore R ctx_t) :
  submitted (level_warning ds) = [].
Proof. unfold level_warning. now destruct (24 <? num_bins ds)%Z. Qed.


(** The units [main] has submitted on a dispatchable datastore are the
    units of the run, whatever the reduction and the combiner do. *)
Lemma main_submits_units (ds : dstore R ctx_t) (imt1 imt2 : imt_t)
      (name : cc_name_t) (meabins sigbins : bins_t)
      (tr : list (event R ctx_t)) (cc : crosscorr_t) :
  new_crosscorr name = OK cc -> dispatchable ds ->
  submitted
    (skipn (length tr)
       (fst (main calc_mean_rate_dist new_crosscorr starmap_reduce
               ds imt1 imt2 name meabins sigbins tr)))
  = units_of_run ds.
Proof.
  intros Hcc Hd.
  rewrite (@main_from_dispatch R scalar ctx_t crosscorr_t imt_t bins_t
             cc_name_t calc_mean_rate_dist new_crosscorr starmap_reduce
             ds imt1 imt2 name meabins sigbins tr cc Hcc Hd).
  assert (Hdis : submitted (dispatched ds) = units_of_run ds).
  { unfold dispatched. rewrite !submitted_app, submitted_level_warning.
    simpl. apply submitted_units. }
  destruct (starmap_reduce _ (units_of_run ds)) as [acc|e]; simpl.
  - destruct (combine_mrds acc (rlzs_by_g ds)) as [out|e]; simpl;
      rewrite skipn_own_length, submitted_app, Hdis; simpl;
      now rewrite app_nil_r.
  - now rewrite skipn_own_length.
Qed.

(** C5, as the code has it.  On a dispatchable datastore (target T >= 1)
    [main] computes one block size, [ceil(n / T)] with [n] the number of
    records of ALL the groups together, not of the group being cut, and
    the units it submits are those of the groups cut with that block
    size, group after group: for every group consecutive slices of its
    own records, in order, which put together give back the records of
    the group exactly, none longer than the block size, and
    [ceil(n_g / blocksize)] in number for a group of [n_g] records. *)
Theorem main_partitions_by_total (ds : dstore R ctx_t) (imt1 imt2 : imt_t)
        (name : cc_name_t) (meabins sigbins : bins_t)
        (tr : list (event R ctx_t)) (cc : crosscorr_t) :
  new_crosscorr name = OK cc -> dispatchable ds ->
  exists b : nat,
    ceil_div (Z.of_nat (num_contexts (ctx_by_grp ds))) (concurrent_tasks ds)
    = OK (Z.of_nat b) /\
    (concurrent_tasks ds * (Z.of_nat b - 1)
     < Z.of_nat (num_contexts (ctx_by_grp ds))
     <= concurrent_tasks ds * Z.of_nat b)%Z /\
    submitted
      (skipn (length tr)
         (fst (main calc_mean_rate_dist new_crosscorr starmap_reduce
                 ds imt1 imt2 name meabins sigbins tr)))
    = flat_map (units_of_group (cmakers ds) (sitecol_len ds) (Z.of_nat b))
        (ctx_by_grp ds) /\
    Forall (fun gc =>
              let units :=
                map (@ctx ctx_t)
                  (units_of_group (cmakers ds) (sitecol_len ds) (Z.of_nat b) gc) in
              concat units = snd gc /\
              Forall (fun u => length u <= b) units /\
              length units = ceil_nat (length (snd gc)) b)
      (ctx_by_grp ds).
Proof.
  intros Hcc Hd. pose proof Hd as [_ [_ [HT _]]].
  destruct (blocksize_of_nat ds HT) as [b [Hbs [Hceil [Hbound _]]]].
  destruct (units_of_run_groups Hd) as [b' [Hbs' [_ Hgroups]]].
  assert (b' = b) by (apply Nat2Z.inj; congruence). subst b'.
  exists b.
  split; [now rewrite <- Hbs|]. split; [exact Hbound|].
  split.
  - rewrite <- Hbs. now apply (@main_submits_units ds imt1 imt2 name meabins sigbins tr cc).
  - eapply Forall_impl; [|exact Hgroups].
    intros gc [cm [us [_ [Hu [Hcat [Hlen Hcount]]]]]]. simpl.
    rewrite <- Hbs, Hu, map_map. simpl. rewrite map_id. auto.
Qed.


End MainPartition.

(** * Worked examples in float64 and on integers *)

Module LoopExamples.

Import Scenario.

#[local] Set Warnings "-inexact-float".



Lemma combine_mrds_ignores_absent_index_witness :
  let acc := [(0, float_one)] in
  let tbl := mk_rlzs_by_g [[0]; [1; 2]] [0.1; 0.2; 0.3]%float in
  ~ In 1 (keys acc) /\
  (forall rs, combine_mrds acc (with_row 1 rs tbl) = combine_mrds acc tbl) /\
  combine_mrds acc tbl = OK (accumulated acc tbl).
Proof.
  intros acc tbl.
  assert (Hg : ~ In 1 (keys acc)) by (simpl; intuition discriminate).
  destruct (@combine_mrds_ignores_absent_index float _ acc tbl 1 Hg) as [H1 H2].
  split; [exact Hg|]. split; [exact H1|].
  apply H2.
  - discriminate.
  - unfold uniform_shape; check_data.
  - unfold table_covers; check_data.
Defined.



Lemma compute_then_combine_witness :
  let inp := new_Input [3; 4; 5] (mk_cmaker [0; 1]) 1 in
  let tbl := mk_rlzs_by_g [[0]; [1]] [6; 4]%Z in
  exists d,
    compute_mrd stub_kernel inp tt tt tt tt tt = OK d /\
    combine_mrds d tbl = OK (accumulated d tbl) /\
    has_shape [2; 2; 1] (accumulated d tbl).
Proof.
  intros inp tbl.
  apply (@compute_then_combine Z _ nat unit unit unit stub_kernel
           inp tt tt tt tt tt tbl).
  - discriminate.
  - unfold num_layers; simpl; lia.
  - reflexivity.
  - check_data.
Defined.

Ltac check_store :=
  unfold dispatchable; simpl;
  repeat first
    [ discriminate | lia | apply Forall_nil | apply Forall_cons | split
    | progress simpl ].

Lemma main_partitions_by_total_witness :
  let ds := store 1 4 four_and_eight in
  exists b : nat,
    ceil_div (Z.of_nat (num_contexts (ctx_by_grp ds))) (concurrent_tasks ds)
    = OK (Z.of_nat b) /\
    (concurrent_tasks ds * (Z.of_nat b - 1)
     < Z.of_nat (num_contexts (ctx_by_grp ds))
     <= concurrent_tasks ds * Z.of_nat b)%Z /\
    submitted (skipn (length (@nil (event Z nat))) (fst (run ds)))
    = flat_map (units_of_group (cmakers ds) (sitecol_len ds) (Z.of_nat b))
        (ctx_by_grp ds) /\
    Forall (fun gc =>
              let units :=
                map (@ctx nat)
                  (units_of_group (cmakers ds) (sitecol_len ds) (Z.of_nat b) gc) in
              concat units = snd gc /\
              Forall (fun u => length u <= b) units /\
              length units = ceil_nat (length (snd gc)) b)
      (ctx_by_grp ds).
Proof.
  intros ds.
  apply (@main_partitions_by_total Z _ nat unit unit unit unit stub_kernel
           (fun _ => OK tt) stub_reduce ds tt tt tt tt tt [] tt).
  - reflexivity.
  - check_store.
Defined.


End LoopExamples.
